(** * events: the Event record, its argument list and their operations

    A shallow embedding of [event.go].  The file has two layers.

    - The value layer ([Arg], [Args], [Get], [Map], [A], [SortArgs]) follows
      the argument list operations on the elements a slice gives access to;
      Go panics (an index out of range, a write to a nil map) are results
      [None] of the option monad.
    - The memory layer (module [Mem]) follows [Event.Clone] on a heap of byte
      buffers and argument arrays, where strings and slices are the headers
      the Go runtime keeps (a data pointer with a length), so that sharing of
      backing storage between an event and its clone can be stated. *)

From Stdlib Require Import Ascii.
From stdpp Require Import base option list sorting gmap strings.

(** * The value layer *)

(** ** Dynamic values *)

Section Values.

(** [interface{}]: either nil or some dynamic value; the payloads are opaque
    to this package. *)
Context {Dyn : Type}.

Definition any : Type := option Dyn.

(** The nil interface value, the zero value of [interface{}]. *)
Definition nil : any := None.

(** ** Arg and Args *)

(** [Arg] is read at two representations of Go strings: [Arg string] holds the
    text of the name, and the memory layer's cells hold the header of the name
    as the runtime stores it. *)
Record Arg (str : Type) : Type := mkArg { Name : str; Value : any }.
Arguments mkArg {str} Name Value.
Arguments Name {str} a.
Arguments Value {str} a.

(** A Go slice as a value: the nil slice, or the elements it gives access
    to. *)
Inductive slice (T : Type) : Type :=
| nilslice
| Slice (l : list T).
Arguments nilslice {T}.
Arguments Slice {T} l.

Definition elems {T} (s : slice T) : list T :=
  match s with nilslice => [] | Slice l => l end.

Definition len {T} (s : slice T) : nat := length (elems s).

(** [make([]T, n, c)]: never nil, [n] zero values. *)
Definition make {T} (zero : T) (n c : nat) : slice T := Slice (replicate n zero).

(** [append(s, x)]: appending to the nil slice allocates. *)
Definition append {T} (s : slice T) (x : T) : slice T := Slice (elems s ++ [x]).

Definition Args : Type := slice (Arg string).

(** ** Args.Get *)

(** The loop of [Get]: [v, ok] start as the zero values and the first
    matching entry sets them and breaks. *)
Fixpoint Get_range (l : list (Arg string)) (name : string) : any * bool :=
  match l with
  | [] => (nil, false)
  | arg :: l' =>
      if decide (Name arg = name) then (Value arg, true)
      else Get_range l' name
  end.

Definition Get (args : Args) (name : string) : any * bool :=
  Get_range (elems args) name.

(** ** Maps *)

(** A Go map value: the nil map, or a table made by [make]. *)
Inductive gomap : Type :=
| nilmap
| Table (m : gmap string any).

Definition entries (m : gomap) : gmap string any :=
  match m with nilmap => ∅ | Table t => t end.

(** [len(m)]; the nil map has length 0. *)
Definition maplen (m : gomap) : nat := size (entries m).

(** [make(map[string]interface{})] *)
Definition makemap : gomap := Table ∅.

(** [m[k] = v]; a write to the nil map panics. *)
Definition mapassign (m : gomap) (k : string) (v : any) : option gomap :=
  match m with
  | nilmap => None
  | Table t => Some (Table (<[k := v]> t))
  end.

(** ** Args.Map *)

Fixpoint Map_range (l : list (Arg string)) (m : gomap) : option gomap :=
  match l with
  | [] => Some m
  | arg :: l' => m' ← mapassign m (Name arg) (Value arg); Map_range l' m'
  end.

Definition Map (args : Args) : option gomap :=
  Map_range (elems args) makemap.

(** ** A *)

(** [for name, value := range m] visits every entry of [m] once, in an order
    the runtime chooses: [it] is the sequence of entries one run of the loop
    visits. *)
Definition map_range (m : gomap) (it : list (string * any)) : Prop :=
  it ≡ₚ map_to_list (entries m).

(** [A], on the sequence [it] that [range m] yields. *)
Definition A (m : gomap) (it : list (string * any)) : Args :=
  foldl (λ args '(name, value), append args (mkArg name value))
        (make (mkArg "" nil) 0 (maplen m)) it.

(** An entry of a map as an [Arg], and back. *)
Definition entry_Arg (kv : string * any) : Arg string := mkArg kv.1 kv.2.
Definition Arg_entry (arg : Arg string) : string * any := (Name arg, Value arg).

(** Ascending order of names: no entry has a name smaller than the name of an
    entry before it. *)
Definition Name_le (x y : Arg string) : Prop := String.le (Name x) (Name y).

(** ** SortArgs *)

(** [sort.Interface].  The receiver is updated in place, so [Swap] returns the
    new state of the collection; an index out of range panics. *)
Class Interface (T : Type) : Type := {
  Len : T → nat;
  Less : T → nat → nat → option bool;
  Swap : T → nat → nat → option T
}.

Definition byArgName : Type := Args.

#[export] Instance byArgName_Interface : Interface byArgName := {
  Len a := len a;
  Less a i j :=
    x ← elems a !! i; y ← elems a !! j;
    Some (String.ltb (Name x) (Name y));
  Swap a i j :=
    match a with
    | nilslice => None
    | Slice l => x ← l !! i; y ← l !! j; Some (Slice (<[j := x]> (<[i := y]> l)))
    end
}.

Section sort.
Context {T : Type} `{!Interface T}.

(** The inner loop of the library's insertion sort,
    [for j := i; j > a && data.Less(j, j-1); j-- { data.Swap(j, j-1) }]. *)
Fixpoint insertionSort_inner (a j : nat) (data : T) : option T :=
  match j with
  | 0 => Some data
  | S j' =>
      if decide (a < j) then
        lt ← Less data j j';
        if (lt : bool) then data' ← Swap data j j'; insertionSort_inner a j' data'
        else Some data
      else Some data
  end.

(** The outer loop, [for i := a + 1; i < b; i++], with [n] iterations left. *)
Fixpoint insertionSort_outer (a n i : nat) (data : T) : option T :=
  match n with
  | 0 => Some data
  | S n' => data' ← insertionSort_inner a i data; insertionSort_outer a n' (S i) data'
  end.

Definition insertionSort (data : T) (a b : nat) : option T :=
  insertionSort_outer a (b - (a + 1)) (a + 1) data.

(** [sort.Sort] belongs to Go's library, not to this package.  It is modelled
    by the library's insertion sort, the routine [sort.Sort] hands small
    collections to; like every routine of the library it touches the
    collection through [Len], [Less] and [Swap] only. *)
Definition sort_Sort (data : T) : option T :=
  let n := Len data in insertionSort data 0 n.

End sort.

Definition SortArgs (args : Args) : option Args :=
  sort_Sort (args : byArgName).

(** What any run of a sorting routine over [sort.Interface] can do to the
    collection: a sequence of in-range swaps. *)
Inductive swaps {T} `{!Interface T} : T → T → Prop :=
| swaps_refl data : swaps data data
| swaps_step data i j data' data'' :
    Swap data i j = Some data' → swaps data' data'' → swaps data data''.

(** The state a sorting routine leaves: no element is [Less] than one before
    it. *)
Definition sorted_by_Less {T} `{!Interface T} (data : T) : Prop :=
  ∀ i j, i < j < Len data → Less data j i = Some false.

End Values.

Arguments any Dyn : clear implicits.
Arguments Arg Dyn str : clear implicits.
Arguments mkArg {Dyn str} Name Value.
Arguments Name {Dyn str} a.
Arguments Value {Dyn str} a.
Arguments Args Dyn : clear implicits.
Arguments gomap Dyn : clear implicits.
Arguments byArgName Dyn : clear implicits.
Arguments nilslice {T}.
Arguments Slice {T} l.

(** * The memory layer: Event.Clone *)

Module Mem.

(** A pointer into a heap block. *)
Record pointer : Type := Ptr { block : nat; offset : nat }.

(** The header of a string: data pointer and length.  The zero value (the
    empty string) has a nil data pointer. *)
Record StringHeader : Type := mkString { sdata : option pointer; slen : nat }.

(** The header of a slice: data pointer, length and capacity.  The nil slice
    has a nil data pointer. *)
Record SliceHeader : Type :=
  mkSlice { adata : option pointer; alen : nat; acap : nat }.

Definition empty_string : StringHeader := mkString None 0.
Definition nil_slice : SliceHeader := mkSlice None 0 0.

(** An [Arg] as an array holds it. *)
Abbreviation cell Dyn := (Arg Dyn StringHeader) (only parsing).

Section memory.

(** [Dyn] as in the value layer; [time_Time] stands for [time.Time], which
    [Clone] copies as it is. *)
Context {Dyn time_Time : Type}.

Definition zero_Arg : cell Dyn := mkArg empty_string nil.

Record Event : Type := mkEvent {
  Message : StringHeader;
  Source : StringHeader;
  Args : SliceHeader;
  Time : time_Time;
  Debug : bool
}.

(** The heap: the byte buffers behind strings and byte slices, and the
    arrays behind [Args] slices.  A block is addressed by its position; blocks
    are never freed. *)
Record heap : Type := mkHeap {
  bytes : list (list ascii);
  arrays : list (list (cell Dyn))
}.

(** The [n] elements at [p]; reading nothing needs no pointer. *)
Definition window {X} (mem : list (list X)) (p : option pointer) (n : nat)
  : option (list X) :=
  if decide (n = 0) then Some []
  else
    q ← p; b ← mem !! block q;
    if decide (offset q + n ≤ length b) then Some (take n (drop (offset q) b))
    else None.

(** Overwrite the elements at [q] by [xs], within the block. *)
Definition poke {X} (mem : list (list X)) (q : pointer) (xs : list X)
  : option (list (list X)) :=
  b ← mem !! block q;
  if decide (offset q + length xs ≤ length b) then
    Some (<[block q := take (offset q) b ++ xs ++ drop (offset q + length xs) b]> mem)
  else None.

Definition load_string (h : heap) (s : StringHeader) : option (list ascii) :=
  window (bytes h) (sdata s) (slen s).

Definition load_cells (h : heap) (a : SliceHeader) : option (list (cell Dyn)) :=
  window (arrays h) (adata a) (alen a).

(** Computations on the heap that may panic. *)
Definition M (X : Type) : Type := heap → option (X * heap).

#[export] Instance M_ret : MRet M := λ X x h, Some (x, h).
#[export] Instance M_bind : MBind M := λ X Y f m h,
  match m h with Some (x, h') => f x h' | None => None end.

(** [make([]byte, n)] *)
Definition make_bytes (n : nat) : M SliceHeader := λ h,
  Some (mkSlice (Some (Ptr (length (bytes h)) 0)) n n,
        mkHeap (bytes h ++ [replicate n "000"%char]) (arrays h)).

(** [make(Args, n)] *)
Definition make_Args (n : nat) : M SliceHeader := λ h,
  Some (mkSlice (Some (Ptr (length (arrays h)) 0)) n n,
        mkHeap (bytes h) (arrays h ++ [replicate n zero_Arg])).

(** [copy(dst, src)] from a string into a byte slice: the shorter length
    decides how much is copied. *)
Definition copy (dst : SliceHeader) (src : StringHeader) : M nat := λ h,
  let n := alen dst `min` slen src in
  if decide (n = 0) then Some (0, h)
  else
    bs ← window (bytes h) (sdata src) n; q ← adata dst;
    mem ← poke (bytes h) q bs;
    Some (n, mkHeap mem (arrays h)).

(** [string(b)]: the bytes of [b] in a buffer of their own. *)
Definition string_of_bytes (b : SliceHeader) : M StringHeader := λ h,
  if decide (alen b = 0) then Some (empty_string, h)
  else
    bs ← window (bytes h) (adata b) (alen b);
    Some (mkString (Some (Ptr (length (bytes h)) 0)) (alen b),
          mkHeap (bytes h ++ [bs]) (arrays h)).

(** [a[i]], read. *)
Definition index (a : SliceHeader) (i : nat) : M (cell Dyn) := λ h,
  if decide (i < alen a) then
    q ← adata a; b ← arrays h !! block q; x ← b !! (offset q + i); Some (x, h)
  else None.

(** [a[i] = f(a[i])], an update of one cell. *)
Definition update (a : SliceHeader) (i : nat) (f : cell Dyn → cell Dyn) : M () := λ h,
  if decide (i < alen a) then
    q ← adata a; b ← arrays h !! block q; x ← b !! (offset q + i);
    Some ((), mkHeap (bytes h) (<[block q := <[offset q + i := f x]> b]> (arrays h)))
  else None.

Definition set_Name (s : StringHeader) (x : cell Dyn) : cell Dyn := mkArg s (Value x).
Definition set_Value (v : any Dyn) (x : cell Dyn) : cell Dyn := mkArg (Name x) v.

(** [cloneValue] is defined in a file of the package that is not at hand: it
    is a parameter of [Clone]. *)
Variable cloneValue : any Dyn → any Dyn.

(** The body of [for i := range a], with [n] iterations left. *)
Fixpoint Clone_range (e : Event) (a : SliceHeader) (n i : nat) : M () :=
  match n with
  | 0 => mret ()
  | S n' =>
      x ← index (Args e) i;
      _ ← update a i (set_Name (Name x));
      y ← index (Args e) i;
      _ ← update a i (set_Value (cloneValue (Value y)));
      Clone_range e a n' (S i)
  end.

(** [Event.Clone], from the event the receiver points to: the model starts
    where the receiver has been dereferenced. *)
Definition Clone (e : Event) : M Event :=
  a ← (let n := alen (Args e) in
       if decide (n ≠ 0) then
         a ← make_Args n; _ ← Clone_range e a (alen a) 0; mret a
       else mret nil_slice);
  m ← (let n := slen (Message e) in
       if decide (n ≠ 0) then
         m ← make_bytes n; _ ← copy m (Message e); mret m
       else mret nil_slice);
  s ← (let n := slen (Source e) in
       if decide (n ≠ 0) then
         s ← make_bytes n; _ ← copy s (Source e); mret s
       else mret nil_slice);
  msg ← string_of_bytes m;
  src ← string_of_bytes s;
  mret (mkEvent msg src a (Time e) (Debug e)).

(** The three blocks of [Clone], named for the proofs. *)
Definition Clone_Args_block (e : Event) : M SliceHeader :=
  let n := alen (Args e) in
  if decide (n ≠ 0) then
    a ← make_Args n; _ ← Clone_range e a (alen a) 0; mret a
  else mret nil_slice.

Definition Clone_text_block (src : StringHeader) : M SliceHeader :=
  let n := slen src in
  if decide (n ≠ 0) then
    m ← make_bytes n; _ ← copy m src; mret m
  else mret nil_slice.

(** What [Clone] makes of an argument: the name as it is, the value through
    [cloneValue]. *)
Definition clone_cell {str} (x : Arg Dyn str) : Arg Dyn str :=
  mkArg (Name x) (cloneValue (Value x)).

(** The blocks [Clone] allocates for a text: none for the empty text. *)
Definition blocks_of {X} (t : list X) : list (list X) :=
  if decide (length t = 0) then [] else [t].

(** The header of a copy of [n] elements placed in block [b]. *)
Definition string_at (b n : nat) : StringHeader :=
  if decide (n = 0) then empty_string else mkString (Some (Ptr b 0)) n.
Definition slice_at (b n : nat) : SliceHeader :=
  if decide (n = 0) then nil_slice else mkSlice (Some (Ptr b 0)) n n.

(** ** What a caller can do to an event afterwards *)

(** A write of one byte into a buffer. *)
Definition store_byte (q : pointer) (c : ascii) : M () := λ h,
  mem ← poke (bytes h) q [c]; Some ((), mkHeap mem (arrays h)).

(** [append(a, x)]: in place where the capacity allows, otherwise into a new
    array with room for more than twice as many cells. *)
Definition append_Args (a : SliceHeader) (x : cell Dyn) : M SliceHeader := λ h,
  if decide (alen a < acap a) then
    q ← adata a;
    mem ← poke (arrays h) (Ptr (block q) (offset q + alen a)) [x];
    Some (mkSlice (Some q) (S (alen a)) (acap a), mkHeap (bytes h) mem)
  else
    xs ← load_cells h a;
    let c := S (2 * acap a) in
    Some (mkSlice (Some (Ptr (length (arrays h)) 0)) (S (alen a)) c,
          mkHeap (bytes h)
                 (arrays h ++ [xs ++ x :: replicate (c - S (alen a)) zero_Arg])).

(** ** Reading an event *)

Definition text (h : heap) (s : StringHeader) : option string :=
  String.string_of_list_ascii <$> load_string h s.

Definition read_Arg (h : heap) (x : cell Dyn) : option (Arg Dyn string) :=
  t ← text h (Name x); Some (mkArg t (Value x)).

(** The argument list as the value layer sees it. *)
Definition read_Args (h : heap) (a : SliceHeader) : option (list (Arg Dyn string)) :=
  xs ← load_cells h a; mapM (read_Arg h) xs.

(** The event's own storage is in the heap: its two texts, its arguments with
    their names, and its argument array up to the capacity of the slice. *)
Definition valid (h : heap) (e : Event) : Prop :=
  is_Some (text h (Message e)) ∧
  is_Some (text h (Source e)) ∧
  is_Some (read_Args h (Args e)) ∧
  alen (Args e) ≤ acap (Args e) ∧
  is_Some (window (arrays h) (adata (Args e)) (acap (Args e))).

(** Every block of [h] is a block of [h'] with the same content. *)
Definition preserves (h h' : heap) : Prop :=
  (∀ b blk, bytes h !! b = Some blk → bytes h' !! b = Some blk) ∧
  (∀ b blk, arrays h !! b = Some blk → arrays h' !! b = Some blk).

(** What an event reads as: its two texts and its arguments. *)
Definition reads (h : heap) (e : Event)
  : option string * option string * option (list (Arg Dyn string)) :=
  (text h (Message e), text h (Source e), read_Args h (Args e)).

(** The storage [Clone] fills for the event it returns: the two text buffers
    and the argument array.  The buffers behind the names of the arguments
    are not part of it. *)
Definition reads_own (h : heap) (e : Event)
  : option string * option string * option (list (cell Dyn)) :=
  (text h (Message e), text h (Source e), load_cells h (Args e)).

End memory.

Arguments Event time_Time : clear implicits.
Arguments heap Dyn : clear implicits.
Arguments M Dyn X : clear implicits.

End Mem.

(** * Sample data

    The argument lists and the map of the package's tests, and a small heap
    with an event in it. *)

Definition ex_args : Args nat :=
  Slice [mkArg "x" (Some 1); mkArg "y" (Some 2); mkArg "x" (Some 3)].

Definition ex_unsorted : Args nat :=
  Slice [mkArg "c" (Some 1); mkArg "a" (Some 2); mkArg "b" (Some 3)].

Definition ex_map : gomap nat :=
  Table (<["a" := Some 1]> (<["b" := Some 2]> (<["c" := Some 3]> ∅))).

(** One order in which [range ex_map] can visit the map. *)
Definition ex_range : list (string * any nat) :=
  [("b", Some 2); ("c", Some 3); ("a", Some 1)].

(** Another order for the same map. *)
Definition ex_range2 : list (string * any nat) :=
  [("a", Some 1); ("b", Some 2); ("c", Some 3)].

(** The map of [ex_unsorted], an order to visit it in, and [ex_unsorted] in
    another arrangement. *)
Definition ex_unsorted_map : gomap nat :=
  Table (<["b" := Some 3]> (<["a" := Some 2]> (<["c" := Some 1]> ∅))).

Definition ex_unsorted_range : list (string * any nat) :=
  [("a", Some 2); ("c", Some 1); ("b", Some 3)].

Definition ex_rearranged : list (Arg nat string) :=
  [mkArg "a" (Some 2); mkArg "b" (Some 3); mkArg "c" (Some 1)].

(** [ex_unsorted] with its first and last entries exchanged. *)
Definition ex_swapped : list (Arg nat string) :=
  [mkArg "b" (Some 3); mkArg "a" (Some 2); mkArg "c" (Some 1)].

(** A heap with the buffers ["hello"], ["main"] and ["k"] and an array of one
    argument named by the third buffer; the event uses them all. *)
Definition ex_heap : Mem.heap nat :=
  Mem.mkHeap
    [String.list_ascii_of_string "hello"; String.list_ascii_of_string "main";
     String.list_ascii_of_string "k"]
    [[mkArg (Mem.mkString (Some (Mem.Ptr 2 0)) 1) (Some 7)]].

Definition ex_event : Mem.Event nat :=
  Mem.mkEvent (Mem.mkString (Some (Mem.Ptr 0 0)) 5)
              (Mem.mkString (Some (Mem.Ptr 1 0)) 4)
              (Mem.mkSlice (Some (Mem.Ptr 0 0)) 1 1) 42 false.

(** An event with nothing in it; its empty fields still carry pointers. *)
Definition ex_empty_event : Mem.Event nat :=
  Mem.mkEvent (Mem.mkString (Some (Mem.Ptr 0 2)) 0)
              (Mem.mkString None 0)
              (Mem.mkSlice (Some (Mem.Ptr 0 0)) 0 1) 42 true.

(** The identity stands for [cloneValue] on the sample data: its values are
    numbers. *)
Definition ex_cloneValue (v : any nat) : any nat := v.

(** * Facts about the value layer *)

Section ValueFacts.
Context {Dyn : Type}.
Implicit Types (args : Args Dyn) (l : list (Arg Dyn string)) (name : string).
Implicit Types (m : gomap Dyn) (t : gmap string (any Dyn)).

Lemma Get_range_app_first l1 arg l2 :
  Forall (λ x, Name x ≠ Name arg) l1 →
  Get_range (l1 ++ arg :: l2) (Name arg) = (Value arg, true).
Proof.
  induction 1 as [|x l1 Hx _ IH]; simpl.
  - by rewrite decide_True.
  - by rewrite decide_False.
Qed.

Lemma Get_range_absent l name :
  Forall (λ x, Name x ≠ name) l → Get_range l name = (nil, false).
Proof.
  induction 1 as [|x l Hx _ IH]; simpl; [done|]. by rewrite decide_False.
Qed.

Lemma first_match_or_none l name :
  (∃ l1 arg l2, l = l1 ++ arg :: l2 ∧ Forall (λ x, Name x ≠ name) l1 ∧ Name arg = name)
  ∨ Forall (λ x, Name x ≠ name) l.
Proof.
  induction l as [|x l IH]; [by right|].
  destruct (decide (Name x = name)) as [Heq|Hne].
  - left. by exists [], x, l.
  - destruct IH as [(l1 & arg & l2 & -> & Hl1 & Harg)|Hall].
    + left. exists (x :: l1), arg, l2. split_and!; [done|by constructor|done].
    + right. by constructor.
Qed.

(** C1. [Get] returns the value of the first entry, in sequence order, whose
    name is the one asked for, with [true]; when no entry has that name it
    returns the nil value with [false]. *)
Theorem Get_first_match args name :
  (∃ l1 arg l2,
      elems args = l1 ++ arg :: l2 ∧
      Forall (λ x, Name x ≠ name) l1 ∧ Name arg = name ∧
      Get args name = (Value arg, true))
  ∨ (Forall (λ x, Name x ≠ name) (elems args) ∧ Get args name = (nil, false)).
Proof.
  unfold Get.
  destruct (first_match_or_none (elems args) name)
    as [(l1 & arg & l2 & Hl & Hl1 & <-)|Hall].
  - left. exists l1, arg, l2. rewrite Hl. split_and!; [done..|].
    by apply Get_range_app_first.
  - right. split; [done|]. by apply Get_range_absent.
Qed.

(** The loop of [Map] on a table: every assignment succeeds and the last
    write to a name stays. *)
Lemma Map_range_Table l t :
  Map_range l (Table t) =
  Some (Table (foldl (λ t' arg, <[Name arg := Value arg]> t') t l)).
Proof. revert t. induction l as [|x l IH]; intros t; simpl; [done|]. apply IH. Qed.

Lemma foldl_insert_lookup l t name :
  foldl (λ t' arg, <[Name arg := Value arg]> t') t l !! name =
  match last (filter (λ x, Name x = name) l) with
  | Some arg => Some (Value arg)
  | None => t !! name
  end.
Proof.
  revert t. induction l as [|x l IH] using rev_ind; intros t; [done|].
  rewrite foldl_app, filter_app. simpl.
  rewrite filter_cons, filter_nil.
  destruct (decide (Name x = name)) as [<-|Hne].
  - by rewrite last_snoc, lookup_insert_eq.
  - rewrite app_nil_r, lookup_insert_ne by done. apply IH.
Qed.

Lemma Map_Table args :
  Map args =
  Some (Table (foldl (λ t' arg, <[Name arg := Value arg]> t') ∅ (elems args))).
Proof. apply Map_range_Table. Qed.

(** C2. [Map] returns a table, never the nil map; the table binds each name
    of the list to the value of its last occurrence and binds no other name;
    for the nil list and for the empty list the table is empty. *)
Theorem Map_last_wins args :
  ∃ t, Map args = Some (Table t) ∧
       (∀ name,
          t !! name = Value <$> last (filter (λ x, Name x = name) (elems args))) ∧
       Map (nilslice : Args Dyn) = Some (Table ∅) ∧
       Map (Slice [] : Args Dyn) = Some (Table ∅).
Proof.
  eexists. split; [apply Map_Table|]. split; [|done].
  intros name. rewrite foldl_insert_lookup.
  by destruct (last _).
Qed.

Lemma filter_no_match l name :
  Forall (λ x, Name x ≠ name) l → filter (λ x, Name x = name) l = [].
Proof.
  induction 1 as [|x l Hx _ IH]; [done|]. by rewrite filter_cons_False.
Qed.

(** C10. [Get] finds a name exactly when the name is a key of [Map]. *)
Theorem Get_found_iff_Map_key args name :
  ∃ t, Map args = Some (Table t) ∧ ((Get args name).2 = true ↔ name ∈ dom t).
Proof.
  eexists. split; [apply Map_Table|].
  rewrite elem_of_dom, foldl_insert_lookup, lookup_empty. unfold Get.
  destruct (first_match_or_none (elems args) name)
    as [(l1 & arg & l2 & -> & Hl1 & <-)|Hall].
  - rewrite Get_range_app_first by done. simpl. split; [intros _|done].
    rewrite filter_app, filter_cons_True by done.
    rewrite last_app, last_cons. by repeat case_match.
  - rewrite Get_range_absent, filter_no_match by done. simpl.
    split; [done|]. by intros [? [=]].
Qed.

(** ** A *)

Lemma Arg_entry_Arg (it : list (string * any Dyn)) :
  Arg_entry <$> (entry_Arg <$> it) = it.
Proof. induction it as [|[k v] it IH]; csimpl; [done|]. by rewrite IH. Qed.

Lemma entry_Arg_entry l : entry_Arg <$> (Arg_entry <$> l) = l.
Proof. induction l as [|[k v] l IH]; csimpl; [done|]. by rewrite IH. Qed.

Lemma A_Slice m it : A m it = Slice (entry_Arg <$> it).
Proof.
  unfold A, make. simpl.
  assert (∀ l0, foldl (λ args '(name, value), append args (mkArg name value))
                  (Slice l0) it = Slice (l0 ++ (entry_Arg <$> it))) as Hgen.
  { induction it as [|[k v] it IH]; intros l0; simpl.
    - by rewrite app_nil_r.
    - unfold append at 2. simpl. rewrite IH, <- app_assoc. done. }
  apply Hgen.
Qed.

Lemma map_range_of_list (it : list (string * any Dyn)) :
  NoDup it.*1 → map_range (Table (list_to_map it)) it.
Proof. intros Hnd. unfold map_range. simpl. by rewrite map_to_list_to_map. Qed.

Lemma foldl_insert_list_to_map (it : list (string * any Dyn)) :
  foldl (λ t' arg, <[Name arg := Value arg]> t') ∅ (entry_Arg <$> it)
  = list_to_map (reverse it).
Proof.
  induction it as [|[k v] it IH] using rev_ind; [done|].
  rewrite fmap_app, foldl_app, reverse_snoc. simpl. by rewrite IH.
Qed.

(** C3. For every map [m] and every order in which [range m] visits it,
    [A(m).Map()] is a table with exactly the entries of [m]. *)
Theorem A_Map_round_trip m it :
  map_range m it → Map (A m it) = Some (Table (entries m)).
Proof.
  intros Hit. rewrite Map_Table, A_Slice. simpl.
  rewrite foldl_insert_list_to_map. do 2 f_equal.
  rewrite <- (list_to_map_to_list (entries m)).
  apply list_to_map_proper.
  - rewrite reverse_Permutation, Hit. apply NoDup_fst_map_to_list.
  - by rewrite reverse_Permutation.
Qed.

(** C8. [A(m)] is a slice, never the nil one, with one entry per key of [m],
    each pairing a key with its value in [m]: its length is the number of
    keys, no name occurs twice, and its entries are exactly the bindings of
    [m]; for a map without keys it is the empty slice.  The order is the one
    [range] picks, and every order can come out. *)
Theorem A_one_entry_per_key m it :
  map_range m it →
  A m it = Slice (entry_Arg <$> it) ∧
  len (A m it) = maplen m ∧
  NoDup (Name <$> elems (A m it)) ∧
  (∀ name v, mkArg name v ∈ elems (A m it) ↔ entries m !! name = Some v) ∧
  (maplen m = 0 → A m it = Slice []) ∧
  (∀ l', l' ≡ₚ elems (A m it) → ∃ it', map_range m it' ∧ A m it' = Slice l').
Proof.
  intros Hit. rewrite A_Slice. unfold len, maplen. simpl.
  assert (length it = size (entries m)) as Hlen.
  { by rewrite Hit, length_map_to_list. }
  split_and!.
  - done.
  - by rewrite length_fmap.
  - rewrite <- list_fmap_compose.
    change (NoDup it.*1). rewrite Hit. apply NoDup_fst_map_to_list.
  - intros name v. rewrite <- elem_of_map_to_list, <- Hit.
    rewrite list_elem_of_fmap. split.
    + intros [[k w] [[= -> ->] Hin]]. done.
    + intros Hin. by exists (name, v).
  - intros Hz. rewrite Hz in Hlen. by destruct it.
  - intros l' Hl'.
    exists (Arg_entry <$> l'). split.
    + unfold map_range. by rewrite <- Hit, Hl', Arg_entry_Arg.
    + by rewrite A_Slice, entry_Arg_entry.
Qed.

(** ** SortArgs *)

Lemma ltb_false_le (s1 s2 : string) : String.ltb s1 s2 = false ↔ String.le s2 s1.
Proof.
  unfold String.le, String.leb, String.ltb.
  rewrite (String.compare_antisym s1 s2).
  by destruct (String.compare s2 s1).
Qed.

Lemma ltb_true_le (s1 s2 : string) : String.ltb s1 s2 = true → String.le s1 s2.
Proof.
  unfold String.le, String.leb, String.ltb.
  by destruct (String.compare s1 s2).
Qed.

#[local] Instance Name_le_trans : Transitive (@Name_le Dyn).
Proof. intros x y z. unfold Name_le. apply transitivity. Qed.

Lemma lookup_neighbours (l1 : list (Arg Dyn string)) x y l2 :
  (l1 ++ y :: x :: l2) !! S (length l1) = Some x ∧
  (l1 ++ y :: x :: l2) !! length l1 = Some y.
Proof.
  split; [|by apply list_lookup_middle].
  rewrite (cons_middle y l1), app_assoc.
  apply list_lookup_middle. rewrite length_app. simpl. lia.
Qed.

(** [Less] and [Swap] at two neighbours of a slice. *)
Lemma Less_neighbours l1 x y l2 :
  Less (Slice (l1 ++ y :: x :: l2) : byArgName Dyn) (S (length l1)) (length l1)
  = Some (String.ltb (Name x) (Name y)).
Proof.
  destruct (lookup_neighbours l1 x y l2) as [Hx Hy].
  cbn [Less byArgName_Interface elems]. by rewrite Hx, Hy.
Qed.

Lemma Swap_neighbours l1 x y l2 :
  Swap (Slice (l1 ++ y :: x :: l2) : byArgName Dyn) (S (length l1)) (length l1)
  = Some (Slice (l1 ++ x :: y :: l2)).
Proof.
  destruct (lookup_neighbours l1 x y l2) as [Hx Hy].
  cbn [Swap byArgName_Interface]. rewrite Hx, Hy. cbn [mbind option_bind].
  do 2 f_equal.
  rewrite (insert_app_r_alt l1) by lia.
  replace (S (length l1) - length l1) with 1 by lia. cbn [insert list_insert].
  rewrite (insert_app_r_alt l1) by lia.
  by replace (length l1 - length l1) with 0 by lia.
Qed.

(** The inner loop moves the element at [j] down past the elements that are
    greater, and stops at the first that is not. *)
Lemma insertionSort_inner_spec l1 : ∀ x l2,
  ∃ la lb,
    l1 = la ++ lb ∧
    insertionSort_inner 0 (length l1) (Slice (l1 ++ x :: l2) : byArgName Dyn)
      = Some (Slice (la ++ x :: lb ++ l2)) ∧
    Forall (Name_le x) lb ∧
    Forall (λ z, Name_le z x) (option_list (last la)).
Proof.
  induction l1 as [|y l1 IH] using rev_ind; intros x l2.
  { exists [], []. by split_and!. }
  rewrite length_app, Nat.add_1_r. cbn [insertionSort_inner].
  rewrite decide_True by lia.
  rewrite <- app_assoc. cbn [app].
  rewrite Less_neighbours. cbn [mbind option_bind].
  destruct (String.ltb (Name x) (Name y)) eqn:Hlt.
  - rewrite Swap_neighbours. cbn [mbind option_bind].
    destruct (IH x (y :: l2)) as (la & lb & -> & Hrun & Hlb & Hla).
    exists la, (lb ++ [y]). split_and!.
    + by rewrite app_assoc.
    + rewrite Hrun. by rewrite <- app_assoc.
    + apply Forall_app. split; [done|].
      constructor; [|done]. by apply ltb_true_le.
    + done.
  - exists (l1 ++ [y]), []. split_and!.
    + by rewrite app_nil_r.
    + by rewrite <- app_assoc.
    + done.
    + rewrite last_snoc. simpl. constructor; [|done]. by apply ltb_false_le.
Qed.

Lemma insert_StronglySorted (la lb : list (Arg Dyn string)) x :
  StronglySorted Name_le (la ++ lb) →
  Forall (Name_le x) lb →
  Forall (λ z, Name_le z x) (option_list (last la)) →
  StronglySorted Name_le (la ++ x :: lb).
Proof.
  intros Hs Hlb Hla.
  apply StronglySorted_app in Hs as (Hab & Ha & Hb).
  assert (Forall (λ z, Name_le z x) la) as Hla'.
  { destruct la as [|z la _] using rev_ind; [done|].
    rewrite last_snoc in Hla. apply Forall_cons_1 in Hla as [Hz _].
    apply StronglySorted_app in Ha as (Hlaz & _ & _).
    apply Forall_app. split; [|by constructor].
    apply Forall_forall. intros w Hw. etrans; [|exact Hz].
    apply Hlaz; [done|]. by apply list_elem_of_singleton. }
  apply StronglySorted_app_2; [|done|by apply StronglySorted_cons].
  intros x1 x2 Hx1 [->|Hx2]%elem_of_cons.
  - revert x1 Hx1. by apply Forall_forall.
  - by apply Hab.
Qed.

Lemma insertionSort_outer_spec rest : ∀ pre,
  StronglySorted Name_le pre →
  ∃ l', insertionSort_outer 0 (length rest) (length pre)
          (Slice (pre ++ rest) : byArgName Dyn) = Some (Slice l') ∧
        StronglySorted Name_le l' ∧ l' ≡ₚ pre ++ rest.
Proof.
  induction rest as [|x rest IH]; intros pre Hpre.
  { exists pre. rewrite app_nil_r. by split_and!. }
  cbn [length insertionSort_outer].
  destruct (insertionSort_inner_spec pre x rest) as (la & lb & Hpre' & -> & Hlb & Hla).
  cbn [mbind option_bind].
  destruct (IH (la ++ x :: lb)) as (l' & Hrun & Hl' & Hperm).
  { apply insert_StronglySorted; [by rewrite <- Hpre'|done..]. }
  exists l'. split_and!; [|done|].
  - rewrite <- Hrun. f_equal.
    + rewrite Hpre', !length_app. simpl. lia.
    + by rewrite <- app_assoc.
  - rewrite Hperm, Hpre'. rewrite <- !app_assoc. simpl.
    by rewrite Permutation_middle.
Qed.

Lemma SortArgs_Slice l :
  ∃ l', SortArgs (Slice l) = Some (Slice l') ∧
        StronglySorted Name_le l' ∧ l' ≡ₚ l.
Proof.
  unfold SortArgs, sort_Sort, insertionSort. cbn [Len byArgName_Interface].
  unfold len. cbn [elems].
  destruct l as [|x rest].
  { exists []. split_and!; [done|constructor|done]. }
  cbn [length]. replace (S (length rest) - (0 + 1)) with (length rest) by lia.
  apply (insertionSort_outer_spec rest [x]).
  repeat constructor.
Qed.

(** *** Any routine of the library

    The two facts below do not depend on which routine [sort.Sort] runs: a
    run is a sequence of swaps, and it ends in a state where [Less] finds no
    inversion. *)

Lemma insert_head_Permutation {X} (l : list X) j x y :
  l !! j = Some y → y :: <[j := x]> l ≡ₚ x :: l.
Proof.
  revert j. induction l as [|b l IH]; intros [|j] Hj; simplify_eq/=.
  - apply perm_swap.
  - rewrite perm_swap, (IH j Hj). apply perm_swap.
Qed.

Lemma swap_Permutation {X} (l : list X) i j x y :
  l !! i = Some x → l !! j = Some y → <[j := x]> (<[i := y]> l) ≡ₚ l.
Proof.
  revert i j. induction l as [|b l IH]; intros [|i] [|j] Hi Hj; simplify_eq/=.
  - done.
  - by apply insert_head_Permutation.
  - by apply insert_head_Permutation.
  - f_equiv. by apply IH.
Qed.

Lemma swaps_Permutation (a a' : byArgName Dyn) :
  swaps a a' → elems a' ≡ₚ elems a ∧ (a = nilslice ↔ a' = nilslice).
Proof.
  induction 1 as [a|a i j a' a'' Hswap _ [IHp IHn]]; [done|].
  destruct a as [|l]; [done|]. cbn [Swap byArgName_Interface] in Hswap.
  destruct (l !! i) as [x|] eqn:Hi; [|done].
  destruct (l !! j) as [y|] eqn:Hj; [|done].
  simplify_eq/=. split.
  - rewrite IHp. simpl. by apply swap_Permutation.
  - rewrite <- IHn. done.
Qed.

Lemma sorted_by_Less_StronglySorted (a : byArgName Dyn) :
  sorted_by_Less a ↔ StronglySorted Name_le (elems a).
Proof.
  unfold sorted_by_Less. cbn [Len Less byArgName_Interface]. unfold len.
  generalize (elems a). clear a. intros l. split.
  - induction l as [|x l IH]; intros Hl; [constructor|].
    apply StronglySorted_cons. split.
    + apply Forall_lookup. intros j y Hj.
      specialize (Hl 0 (S j)). simpl in Hl. rewrite Hj in Hl. simpl in Hl.
      apply ltb_false_le. apply lookup_lt_Some in Hj.
      assert (0 < S j < S (length l)) as Hlt by lia.
      specialize (Hl Hlt). by simplify_eq.
    + apply IH. intros i j Hij. apply (Hl (S i) (S j)). simpl. lia.
  - intros Hs i j Hij.
    destruct (lookup_lt_is_Some_2 l i) as [x Hx]; [lia|].
    destruct (lookup_lt_is_Some_2 l j) as [y Hy]; [lia|].
    rewrite Hy, Hx. simpl. f_equal. apply ltb_false_le.
    apply take_drop_middle in Hy. rewrite <- Hy in Hs.
    apply StronglySorted_app in Hs as (Hs & _ & _).
    apply Hs; [|left].
    apply list_elem_of_lookup. exists i. rewrite lookup_take_lt by lia. done.
Qed.

(** Whatever routine ran: names in ascending order, entries rearranged. *)
Lemma any_sort_run (a a' : byArgName Dyn) :
  swaps a a' → sorted_by_Less a' →
  StronglySorted String.le (Name <$> elems a') ∧ elems a' ≡ₚ elems a.
Proof.
  intros Hrun Hsorted. split; [|by apply swaps_Permutation].
  apply sorted_by_Less_StronglySorted in Hsorted.
  eapply (StronglySorted_fmap Name Name_le); [|exact Hsorted]. by intros x y.
Qed.

(** The insertion sort is such a routine, over any collection. *)
Lemma insertionSort_inner_swaps {T} `{!Interface T} a j (data data' : T) :
  insertionSort_inner a j data = Some data' → swaps data data'.
Proof.
  revert data. induction j as [|j IH]; intros data Hrun; simpl in Hrun.
  { simplify_eq. constructor. }
  case_decide; [|simplify_eq; constructor].
  destruct (Less data (S j) j) as [[]|]; simplify_eq/=; [|constructor].
  destruct (Swap data (S j) j) as [d|] eqn:Hswap; simplify_eq/=.
  eapply swaps_step; [exact Hswap|]. by apply IH.
Qed.

Lemma swaps_trans {T} `{!Interface T} (d1 d2 d3 : T) :
  swaps d1 d2 → swaps d2 d3 → swaps d1 d3.
Proof.
  induction 1 as [|d i j d' d'' Hs _ IH]; [done|].
  intros H3. eapply swaps_step; [exact Hs|]. by apply IH.
Qed.

Lemma insertionSort_outer_swaps {T} `{!Interface T} a n i (data data' : T) :
  insertionSort_outer a n i data = Some data' → swaps data data'.
Proof.
  revert i data. induction n as [|n IH]; intros i data Hrun; simpl in Hrun.
  { simplify_eq. constructor. }
  destruct (insertionSort_inner a i data) as [d|] eqn:Hin; simplify_eq/=.
  eapply swaps_trans; [by eapply insertionSort_inner_swaps|by eapply IH].
Qed.

Lemma sort_Sort_swaps {T} `{!Interface T} (data data' : T) :
  sort_Sort data = Some data' → swaps data data'.
Proof. apply insertionSort_outer_swaps. Qed.

(** A run of swaps has nothing to rearrange in a collection of at most one
    entry. *)
Lemma swaps_small (a a' : byArgName Dyn) :
  swaps a a' → len a ≤ 1 → a' = a.
Proof.
  induction 1 as [a|a i j a' a'' Hswap _ IH]; [done|]. intros Hlen.
  destruct a as [|l]; [done|]. cbn [Swap byArgName_Interface] in Hswap.
  destruct (l !! i) as [x|] eqn:Hi; [|done].
  destruct (l !! j) as [y|] eqn:Hj; [|done].
  unfold len in Hlen. simpl in Hlen.
  apply lookup_lt_Some in Hi as Hi'. apply lookup_lt_Some in Hj as Hj'.
  assert (i = 0) as -> by lia. assert (j = 0) as -> by lia.
  destruct l as [|z [|]]; simplify_eq/=; [|lia]. by apply IH.
Qed.

(** C4. [SortArgs] does not fail and leaves the names in ascending order;
    the entries it leaves are a rearrangement of the entries it found, so
    values travel with their names; the nil slice, the empty slice and a
    slice of one entry are left as they were.  The same holds of any run of
    swaps that ends with no entry [Less] than one before it, whichever
    routine of the library made it. *)
Theorem SortArgs_sorts (args : Args Dyn) :
  (∃ args', SortArgs args = Some args' ∧
            StronglySorted String.le (Name <$> elems args') ∧
            elems args' ≡ₚ elems args) ∧
  SortArgs (nilslice : Args Dyn) = Some nilslice ∧
  SortArgs (Slice [] : Args Dyn) = Some (Slice []) ∧
  (∀ x : Arg Dyn string, SortArgs (Slice [x]) = Some (Slice [x])) ∧
  (∀ args' : byArgName Dyn,
     swaps (args : byArgName Dyn) args' → sorted_by_Less args' →
     StronglySorted String.le (Name <$> elems args') ∧
     elems args' ≡ₚ elems args ∧
     (len args ≤ 1 → args' = args)).
Proof.
  split_and!; [|done..|].
  - destruct args as [|l].
    { exists nilslice. split_and!; [done|constructor|done]. }
    destruct (SortArgs_Slice l) as (l' & Hrun & Hsorted & Hperm).
    exists (Slice l'). split_and!; [done| |done].
    eapply (StronglySorted_fmap Name Name_le); [|exact Hsorted]. by intros x y.
  - intros args' Hrun Hsorted.
    destruct (any_sort_run _ _ Hrun Hsorted) as [Hs Hp].
    split_and!; [done..|]. by apply swaps_small.
Qed.

End ValueFacts.

(** * Facts about the memory layer *)

Section MemFacts.
Import Mem.
Context {Dyn time_Time : Type}.
Variable cloneValue : any Dyn → any Dyn.
Implicit Types (h : heap Dyn) (e c : Event time_Time).
Implicit Types (s : StringHeader) (a : SliceHeader) (q : pointer).

(** ** Windows *)

Lemma window_Some {X} (mem : list (list X)) p n xs :
  window mem p n = Some xs →
  length xs = n ∧
  (n ≠ 0 → ∃ q b, p = Some q ∧ mem !! block q = Some b ∧
                  offset q + n ≤ length b ∧ xs = take n (drop (offset q) b)).
Proof.
  unfold window. case_decide as Hn.
  { intros [= <-]. by subst. }
  destruct p as [q|]; [|done]. simpl.
  destruct (mem !! block q) as [b|] eqn:Hb; [|done]. simpl.
  case_decide as Hle; [|done]. intros [= <-]. split.
  - rewrite length_take, length_drop. lia.
  - intros _. by exists q, b.
Qed.

Lemma window_lookup {X} (mem : list (list X)) q b n xs i :
  window mem (Some q) n = Some xs → mem !! block q = Some b → i < n →
  xs !! i = b !! (offset q + i) ∧ is_Some (xs !! i).
Proof.
  intros Hw Hb Hi. apply window_Some in Hw as [Hlen Hw].
  destruct Hw as (q' & b' & [= <-] & Hb' & Hle & ->); [lia|]. simplify_eq.
  rewrite lookup_take_lt, lookup_drop by done. split; [done|].
  apply lookup_lt_is_Some_2. lia.
Qed.

(** A window stays where it is when the memory grows. *)
Lemma window_app {X} (mem ext : list (list X)) p n xs :
  window mem p n = Some xs → window (mem ++ ext) p n = Some xs.
Proof.
  unfold window. case_decide; [done|].
  destruct p as [q|]; [|done]. simpl.
  destruct (mem !! block q) as [b|] eqn:Hb; [|done].
  by rewrite (lookup_app_l_Some _ _ _ _ Hb).
Qed.

(** The window on a block just allocated is the block. *)
Lemma window_new {X} (mem : list (list X)) b :
  window (mem ++ [b]) (Some (Ptr (length mem) 0)) (length b) = Some b.
Proof.
  unfold window. case_decide as Hn.
  { by destruct b. }
  simpl. rewrite list_lookup_middle by done. simpl.
  rewrite decide_True by done. by rewrite drop_0, firstn_all.
Qed.

Lemma window_new_app {X} (mem ext : list (list X)) b :
  window (mem ++ b :: ext) (Some (Ptr (length mem) 0)) (length b) = Some b.
Proof. rewrite (cons_middle b), app_assoc. apply window_app, window_new. Qed.

(** ** The blocks of Clone *)

Lemma heap_eta h : mkHeap (bytes h) (arrays h) = h.
Proof. by destruct h. Qed.

Lemma blocks_of_nil {X} (t : list X) : length t = 0 → blocks_of t = [].
Proof. intros Ht. unfold blocks_of. by rewrite decide_True. Qed.

Lemma blocks_of_cons {X} (t : list X) : length t ≠ 0 → blocks_of t = [t].
Proof. intros Ht. unfold blocks_of. by rewrite decide_False. Qed.

Lemma poke_new {X} (mem : list (list X)) (old new : list X) :
  length new = length old →
  poke (mem ++ [old]) (Ptr (length mem) 0) new = Some (mem ++ [new]).
Proof.
  intros Hlen. unfold poke. simpl.
  rewrite list_lookup_middle by done. simpl.
  rewrite decide_True by lia. f_equal.
  rewrite (insert_app_r_alt mem) by lia.
  replace (length mem - length mem) with 0 by lia. simpl.
  by rewrite Hlen, drop_all, app_nil_r.
Qed.

Lemma Clone_text_block_run h s t :
  load_string h s = Some t →
  Clone_text_block s h =
  Some (slice_at (length (bytes h)) (slen s),
        mkHeap (bytes h ++ blocks_of t) (arrays h)).
Proof.
  intros Ht. pose proof (window_Some _ _ _ _ Ht) as [Hlen _].
  unfold Clone_text_block, slice_at. cbv zeta.
  destruct (decide (slen s = 0)) as [Hz|Hnz].
  { rewrite decide_False by lia.
    rewrite blocks_of_nil, app_nil_r, heap_eta by lia. done. }
  rewrite decide_True by done. rewrite blocks_of_cons by lia.
  unfold mbind, M_bind, make_bytes, copy. cbn [alen adata bytes arrays].
  rewrite Nat.min_id, decide_False by done.
  rewrite (window_app _ _ _ _ _ Ht). cbn [mbind option_bind].
  rewrite poke_new; [done|]. by rewrite length_replicate.
Qed.

Lemma string_of_bytes_run h l t :
  (length t ≠ 0 → window (bytes h) (Some (Ptr l 0)) (length t) = Some t) →
  string_of_bytes (slice_at l (length t)) h =
  Some (string_at (length (bytes h)) (length t),
        mkHeap (bytes h ++ blocks_of t) (arrays h)).
Proof.
  intros Ht. unfold string_of_bytes, slice_at, string_at.
  destruct (decide (length t = 0)) as [Hz|Hnz].
  { cbn [alen]. rewrite decide_True by done.
    rewrite blocks_of_nil, app_nil_r, heap_eta by lia. done. }
  cbn [alen adata]. rewrite decide_False by done.
  rewrite (Ht Hnz), blocks_of_cons by done. done.
Qed.

Lemma index_run (A0 ext : list (list (cell Dyn))) B a i q b x :
  i < alen a → adata a = Some q → A0 !! block q = Some b →
  b !! (offset q + i) = Some x →
  index a i (mkHeap B (A0 ++ ext)) = Some (x, mkHeap B (A0 ++ ext)).
Proof.
  intros Hi Hq Hb Hx. unfold index. rewrite decide_True by done.
  rewrite Hq. cbn [mbind option_bind arrays].
  rewrite (lookup_app_l_Some _ _ _ _ Hb). cbn [mbind option_bind].
  by rewrite Hx.
Qed.

Lemma update_new (A0 : list (list (cell Dyn))) B blk n cp i f x :
  i < n → blk !! i = Some x →
  update (mkSlice (Some (Ptr (length A0) 0)) n cp) i f (mkHeap B (A0 ++ [blk]))
  = Some ((), mkHeap B (A0 ++ [<[i := f x]> blk])).
Proof.
  intros Hi Hx. unfold update. cbn [alen adata arrays bytes block offset].
  rewrite decide_True by done. cbn [mbind option_bind].
  rewrite list_lookup_middle by done. cbn [mbind option_bind].
  rewrite Nat.add_0_l, Hx. cbn [mbind option_bind block]. do 3 f_equal.
  rewrite (insert_app_r_alt A0) by lia.
  by replace (length A0 - length A0) with 0 by lia.
Qed.

(** The loop fills the new array from the left; the cells of the original
    are read from memory the loop does not write. *)
Lemma Clone_range_run e (A0 : list (list (cell Dyn))) B q b xs n cp : ∀ k i,
  alen (Args e) = n → adata (Args e) = Some q → A0 !! block q = Some b →
  window A0 (Some q) n = Some xs →
  i + k = n →
  Clone_range cloneValue e (mkSlice (Some (Ptr (length A0) 0)) n cp) k i
    (mkHeap B (A0 ++ [(clone_cell cloneValue <$> take i xs) ++ replicate k zero_Arg]))
  = Some ((), mkHeap B (A0 ++ [clone_cell cloneValue <$> xs])).
Proof.
  intros k i Hn Hq Hb Hxs. revert i.
  pose proof (window_Some _ _ _ _ Hxs) as [Hlen _].
  induction k as [|k IH]; intros i Hik.
  { simpl. rewrite app_nil_r, firstn_all2 by lia. done. }
  destruct (window_lookup _ _ _ _ _ i Hxs Hb) as [Hxi [x Hx]]; [lia|].
  rewrite Hx in Hxi. symmetry in Hxi.
  assert (i < alen (Args e)) as Hi by lia.
  cbn [Clone_range]. unfold mbind at 1, M_bind at 1.
  rewrite (index_run _ _ _ _ _ _ _ _ Hi Hq Hb Hxi).
  assert (length (clone_cell cloneValue <$> take i xs) = i) as Hpre.
  { rewrite length_fmap, length_take. lia. }
  unfold mbind at 1, M_bind at 1.
  erewrite update_new; [|lia|].
  2:{ rewrite lookup_app_r by lia. rewrite Hpre, Nat.sub_diag. done. }
  unfold mbind at 1, M_bind at 1.
  rewrite (index_run _ _ _ _ _ _ _ _ Hi Hq Hb Hxi).
  unfold mbind at 1, M_bind at 1.
  erewrite update_new; [|lia|].
  2:{ apply list_lookup_insert_eq. rewrite length_app, length_replicate. simpl. lia. }
  rewrite list_insert_insert_eq.
  rewrite <- (IH (S i)) by lia. do 4 f_equal.
  rewrite (take_S_r _ _ _ Hx), fmap_app, <- app_assoc.
  rewrite insert_app_r_alt by lia. rewrite Hpre, Nat.sub_diag. done.
Qed.

Lemma Clone_Args_block_run h e xs :
  load_cells h (Args e) = Some xs →
  Clone_Args_block cloneValue e h =
  Some (slice_at (length (arrays h)) (alen (Args e)),
        mkHeap (bytes h) (arrays h ++ blocks_of (clone_cell cloneValue <$> xs))).
Proof.
  intros Hxs. pose proof (window_Some _ _ _ _ Hxs) as [Hlen Hw].
  unfold Clone_Args_block, slice_at. cbv zeta.
  destruct (decide (alen (Args e) = 0)) as [Hz|Hnz].
  { rewrite decide_False by lia.
    rewrite blocks_of_nil, app_nil_r, heap_eta; [done|].
    rewrite length_fmap. lia. }
  rewrite decide_True by done.
  destruct (Hw Hnz) as (q & b & Hq & Hb & Hle & _).
  unfold load_cells in Hxs. rewrite Hq in Hxs.
  unfold mbind at 1, M_bind at 1, make_Args. cbn [alen].
  unfold mbind at 1, M_bind at 1.
  pose proof (Clone_range_run e (arrays h) (bytes h) q b xs _ (alen (Args e))
                (alen (Args e)) 0 eq_refl Hq Hb Hxs ltac:(lia)) as Hrun.
  rewrite take_0 in Hrun. simpl in Hrun. rewrite Hrun.
  rewrite blocks_of_cons; [done|]. rewrite length_fmap. lia.
Qed.

Lemma Clone_blocks e :
  Clone cloneValue e =
  (a ← Clone_Args_block cloneValue e;
   m ← Clone_text_block (Message e);
   s ← Clone_text_block (Source e);
   msg ← string_of_bytes m;
   src ← string_of_bytes s;
   mret (mkEvent msg src a (Time e) (Debug e))).
Proof. reflexivity. Qed.

(** ** The run of Clone

    On an event whose texts and cells are in the heap, [Clone] returns; the
    heap grows by a work buffer and a string buffer for each text that is not
    empty, and by one array when there are arguments. *)
Lemma Clone_run h e tm ts xs :
  load_string h (Message e) = Some tm →
  load_string h (Source e) = Some ts →
  load_cells h (Args e) = Some xs →
  Clone cloneValue e h =
  Some (mkEvent
          (string_at (length (bytes h ++ blocks_of tm ++ blocks_of ts))
                     (slen (Message e)))
          (string_at (length (bytes h ++ blocks_of tm ++ blocks_of ts ++ blocks_of tm))
                     (slen (Source e)))
          (slice_at (length (arrays h)) (alen (Args e)))
          (Time e) (Debug e),
        mkHeap (bytes h ++ blocks_of tm ++ blocks_of ts ++ blocks_of tm ++ blocks_of ts)
               (arrays h ++ blocks_of (clone_cell cloneValue <$> xs))).
Proof.
  intros Hm Hs Hxs.
  pose proof (window_Some _ _ _ _ Hm) as [Hlm _].
  pose proof (window_Some _ _ _ _ Hs) as [Hls _].
  rewrite Clone_blocks.
  unfold mbind at 1, M_bind at 1. rewrite (Clone_Args_block_run _ _ _ Hxs).
  unfold mbind at 1, M_bind at 1.
  erewrite Clone_text_block_run by exact Hm. cbn [bytes arrays].
  unfold mbind at 1, M_bind at 1.
  erewrite Clone_text_block_run; cycle 1.
  { unfold load_string. cbn [bytes]. apply window_app, Hs. }
  cbn [bytes arrays].
  unfold mbind at 1, M_bind at 1.
  rewrite <- Hlm at 1. rewrite string_of_bytes_run; cycle 1.
  { intros Hnz. cbn [bytes]. rewrite blocks_of_cons by done.
    rewrite <- app_assoc. apply window_new_app. }
  cbn [bytes arrays].
  unfold mbind at 1, M_bind at 1.
  rewrite <- Hls at 1. rewrite string_of_bytes_run; cycle 1.
  { intros Hnz. cbn [bytes]. rewrite (blocks_of_cons ts) by done.
    rewrite <- !app_assoc. rewrite app_assoc. apply window_new_app. }
  cbn [bytes arrays]. unfold mret, M_ret.
  rewrite Hlm, Hls, <- !app_assoc. done.
Qed.

(** ** Reading after the heap has grown *)

Lemma text_Some h s r :
  text h s = Some r ↔
  ∃ t, load_string h s = Some t ∧ r = String.string_of_list_ascii t.
Proof.
  unfold text. destruct (load_string h s) as [t|]; simpl.
  - split; [intros [= <-]; by exists t|]. by intros (t' & [= <-] & ->).
  - split; [done|]. by intros (t' & [=] & _).
Qed.

Lemma text_grow h s r ext (A' : list (list (cell Dyn))) :
  text h s = Some r → text (mkHeap (bytes h ++ ext) A') s = Some r.
Proof.
  rewrite !text_Some. intros (t & Ht & ->). exists t. split; [|done].
  by apply window_app.
Qed.

Lemma load_string_at (mem ext : list (list ascii)) (A' : list (list (cell Dyn)))
  (t : list ascii) :
  load_string (mkHeap (mem ++ blocks_of t ++ ext) A')
              (string_at (length mem) (length t)) = Some t.
Proof.
  unfold load_string, string_at, blocks_of.
  destruct (decide (length t = 0)) as [Hz|Hnz]; simpl.
  - by destruct t.
  - apply window_new_app.
Qed.

Lemma load_cells_at (mem ext : list (list (cell Dyn))) B (xs : list (cell Dyn)) :
  load_cells (mkHeap B (mem ++ blocks_of xs ++ ext))
             (slice_at (length mem) (length xs)) = Some xs.
Proof.
  unfold load_cells, slice_at, blocks_of.
  destruct (decide (length xs = 0)) as [Hz|Hnz]; simpl.
  - by destruct xs.
  - apply window_new_app.
Qed.

Lemma read_Arg_grow h (x : cell Dyn) r ext (A' : list (list (cell Dyn))) :
  read_Arg h x = Some r →
  read_Arg (mkHeap (bytes h ++ ext) A') (clone_cell cloneValue x)
  = Some (clone_cell cloneValue r).
Proof.
  unfold read_Arg. simpl.
  destruct (text h (Name x)) as [t|] eqn:Ht; [|done]. simpl. intros [= <-].
  by rewrite (text_grow _ _ _ _ _ Ht).
Qed.

Lemma read_cells_grow h (xs : list (cell Dyn)) (args : list (Arg Dyn string)) ext
  (A' : list (list (cell Dyn))) :
  mapM (read_Arg h) xs = Some args →
  mapM (read_Arg (mkHeap (bytes h ++ ext) A')) (clone_cell cloneValue <$> xs)
  = Some (clone_cell cloneValue <$> args).
Proof.
  rewrite !mapM_Some. intros Hall.
  apply Forall2_fmap. eapply Forall2_impl; [exact Hall|].
  intros x r Hx. by apply read_Arg_grow.
Qed.

(** ** The clone read back *)

Lemma valid_inv h e :
  valid h e →
  ∃ tm ts xs args,
    load_string h (Message e) = Some tm ∧
    load_string h (Source e) = Some ts ∧
    load_cells h (Args e) = Some xs ∧
    mapM (read_Arg h) xs = Some args.
Proof.
  intros ([rm Hm] & [rs Hs] & [args Ha] & _).
  apply text_Some in Hm as (tm & Hm & _). apply text_Some in Hs as (ts & Hs & _).
  unfold read_Args in Ha.
  destruct (load_cells h (Args e)) as [xs|] eqn:Hxs; [|done].
  by exists tm, ts, xs, args.
Qed.

Lemma Clone_reads h e tm ts xs :
  load_string h (Message e) = Some tm →
  load_string h (Source e) = Some ts →
  load_cells h (Args e) = Some xs →
  ∃ c h',
    Clone cloneValue e h = Some (c, h') ∧
    (∃ ext, bytes h' = bytes h ++ ext) ∧
    (∃ ext, arrays h' = arrays h ++ ext) ∧
    load_string h' (Message c) = Some tm ∧
    load_string h' (Source c) = Some ts ∧
    load_cells h' (Args c) = Some (clone_cell cloneValue <$> xs) ∧
    Time c = Time e ∧ Debug c = Debug e ∧
    slen (Message c) = slen (Message e) ∧
    slen (Source c) = slen (Source e) ∧
    alen (Args c) = alen (Args e).
Proof.
  intros Hm Hs Hxs.
  pose proof (window_Some _ _ _ _ Hm) as [Hlm _].
  pose proof (window_Some _ _ _ _ Hs) as [Hls _].
  pose proof (window_Some _ _ _ _ Hxs) as [Hlx _].
  eexists _, _. split; [by apply Clone_run|].
  cbn [bytes arrays Message Source Args Time Debug].
  split_and!; [by eexists|by eexists| | | |done|done|..].
  - rewrite <- Hlm.
    replace (bytes h ++ blocks_of tm ++ blocks_of ts ++ blocks_of tm ++ blocks_of ts)
      with ((bytes h ++ blocks_of tm ++ blocks_of ts) ++ blocks_of tm ++ blocks_of ts)
      by (by rewrite <- !app_assoc).
    apply load_string_at.
  - rewrite <- Hls.
    replace (bytes h ++ blocks_of tm ++ blocks_of ts ++ blocks_of tm ++ blocks_of ts)
      with ((bytes h ++ blocks_of tm ++ blocks_of ts ++ blocks_of tm) ++ blocks_of ts ++ [])
      by (by rewrite app_nil_r, <- !app_assoc).
    apply load_string_at.
  - rewrite <- Hlx, <- (length_fmap (clone_cell cloneValue) xs).
    rewrite <- (app_nil_r (blocks_of (clone_cell cloneValue <$> xs))).
    apply load_cells_at.
  - unfold string_at. by case_decide.
  - unfold string_at. by case_decide.
  - unfold slice_at. by case_decide.
Qed.

(** C6. [Clone] returns a copy: the two texts read the same, [Time] and
    [Debug] are the same, and the arguments are as many, in the same order,
    each with the name of the original and with the value [cloneValue] makes
    of the original's value, hence with the same value wherever [cloneValue]
    returns its argument. *)
Theorem Clone_copy h e :
  valid h e →
  ∃ c h',
    Clone cloneValue e h = Some (c, h') ∧
    is_Some (text h' (Message c)) ∧
    text h' (Message c) = text h (Message e) ∧
    text h' (Source c) = text h (Source e) ∧
    Time c = Time e ∧ Debug c = Debug e ∧
    alen (Args c) = alen (Args e) ∧
    (∃ args, read_Args h (Args e) = Some args ∧
             read_Args h' (Args c) = Some (clone_cell cloneValue <$> args) ∧
             Forall2 (λ x y, Name y = Name x ∧ Value y = cloneValue (Value x))
                     args (clone_cell cloneValue <$> args)) ∧
    ((∀ v, cloneValue v = v) → read_Args h' (Args c) = read_Args h (Args e)).
Proof.
  intros Hv. destruct (valid_inv _ _ Hv) as (tm & ts & xs & args & Hm & Hs & Hxs & Hargs).
  destruct (Clone_reads h e tm ts xs Hm Hs Hxs)
    as (c & h' & Hrun & [eb Hb] & [ea Ha] & Hm' & Hs' & Hxs' & Ht & Hd & _ & _ & Hl).
  assert (read_Args h (Args e) = Some args) as Hread.
  { unfold read_Args. by rewrite Hxs. }
  assert (read_Args h' (Args c) = Some (clone_cell cloneValue <$> args)) as Hread'.
  { unfold read_Args. rewrite Hxs'. cbn [mbind option_bind].
    rewrite <- (heap_eta h'), Hb. by apply read_cells_grow. }
  exists c, h'. unfold text. rewrite Hm', Hs', Hm, Hs.
  split_and!; [done|by eexists|done..| |].
  - exists args. split_and!; [done..|].
    apply Forall2_fmap_r, Forall_Forall2_diag, Forall_true. done.
  - intros Hid. rewrite Hread', Hread. f_equal.
    rewrite <- (list_fmap_id args) at 2. apply list_fmap_ext.
    intros _ [k v] _. unfold clone_cell. simpl. by rewrite Hid.
Qed.

(** C7. The clone of an event whose message, source and arguments are all
    empty has the zero value in all three places: the empty string with a nil
    data pointer, twice, and the nil slice, whatever pointers and capacity
    the empty originals carried.  All three read as empty, and nothing is
    allocated. *)
Theorem Clone_empty h e :
  slen (Message e) = 0 → slen (Source e) = 0 → alen (Args e) = 0 →
  Clone cloneValue e h =
  Some (mkEvent empty_string empty_string nil_slice (Time e) (Debug e), h) ∧
  text h empty_string = Some "" ∧
  read_Args h nil_slice = Some [].
Proof.
  intros Hm Hs Ha. split; [|done].
  rewrite (Clone_run h e [] [] []).
  - rewrite Hm, Hs, Ha. simpl. by rewrite !app_nil_r, heap_eta.
  - unfold load_string. by rewrite Hm.
  - unfold load_string. by rewrite Hs.
  - unfold load_cells. by rewrite Ha.
Qed.

(** ** Storage of the clone and of the original *)

Lemma window_preserved {X} (mem mem' : list (list X)) p n xs :
  (∀ b blk, mem !! b = Some blk → mem' !! b = Some blk) →
  window mem p n = Some xs → window mem' p n = Some xs.
Proof.
  intros Hpre. unfold window. case_decide; [done|].
  destruct p as [q|]; [|done]. simpl.
  destruct (mem !! block q) as [b|] eqn:Hb; [|done].
  by rewrite (Hpre _ _ Hb).
Qed.

Lemma text_preserved h h' s r :
  preserves h h' → text h s = Some r → text h' s = Some r.
Proof.
  intros [Hb _]. rewrite !text_Some. intros (t & Ht & ->).
  exists t. split; [|done]. by eapply window_preserved.
Qed.

Lemma read_Args_preserved h h' a args :
  preserves h h' → read_Args h a = Some args → read_Args h' a = Some args.
Proof.
  intros Hp. unfold read_Args.
  destruct (load_cells h a) as [xs|] eqn:Hxs; [|done]. cbn [mbind option_bind].
  destruct Hp as [Hb Ha]. unfold load_cells in *.
  rewrite (window_preserved _ _ _ _ _ Ha Hxs). cbn [mbind option_bind].
  rewrite !mapM_Some. intros Hall. eapply Forall2_impl; [exact Hall|].
  intros x r. unfold read_Arg.
  destruct (text h (Name x)) as [t|] eqn:Ht; [|done].
  by rewrite (text_preserved h h' _ _ (conj Hb Ha) Ht).
Qed.

Lemma reads_preserved h h' e :
  valid h e → preserves h h' → reads h' e = reads h e.
Proof.
  intros ([rm Hm] & [rs Hs] & [args Ha] & _) Hp. unfold reads.
  rewrite Hm, Hs, Ha.
  by rewrite (text_preserved _ _ _ _ Hp Hm), (text_preserved _ _ _ _ Hp Hs),
    (read_Args_preserved _ _ _ _ Hp Ha).
Qed.

Lemma preserves_trans h1 h2 h3 :
  preserves h1 h2 → preserves h2 h3 → preserves h1 h3.
Proof. intros [??] [??]. split; eauto. Qed.

Lemma preserves_grow h h' eb ea :
  bytes h' = bytes h ++ eb → arrays h' = arrays h ++ ea → preserves h h'.
Proof.
  intros Hb Ha. split; intros b blk Hl.
  - rewrite Hb. by apply lookup_app_l_Some.
  - rewrite Ha. by apply lookup_app_l_Some.
Qed.

Lemma poke_lookup_ne {X} (mem mem' : list (list X)) q ys b :
  poke mem q ys = Some mem' → b ≠ block q → mem' !! b = mem !! b.
Proof.
  unfold poke. destruct (mem !! block q) as [blk|]; [|done]. simpl.
  case_decide; [|done]. intros [= <-] Hne. by rewrite list_lookup_insert_ne.
Qed.

(** A window is not moved by a write into another block. *)
Lemma window_poke_ne {X} (mem mem' : list (list X)) q ys p n :
  poke mem q ys = Some mem' →
  (∀ q', p = Some q' → block q' ≠ block q) →
  window mem' p n = window mem p n.
Proof.
  intros Hpoke Hne. unfold window. case_decide; [done|].
  destruct p as [q'|]; [|done]. simpl.
  by rewrite (poke_lookup_ne _ _ _ _ _ Hpoke (Hne q' eq_refl)).
Qed.

Lemma preserves_new_array h ea : preserves h (mkHeap (bytes h) (arrays h ++ ea)).
Proof. apply (preserves_grow _ _ [] ea); [|done]. simpl. by rewrite app_nil_r. Qed.

(** A write above the blocks of [h] preserves [h]. *)
Lemma store_byte_preserves h h' h'' q ch :
  preserves h h' → length (bytes h) ≤ block q →
  store_byte q ch h' = Some ((), h'') → preserves h h''.
Proof.
  intros [Hb Ha] Hq. unfold store_byte.
  destruct (poke (bytes h') q [ch]) as [mem|] eqn:Hpoke; [|done].
  intros [= <-]. split; [|done]. cbn [bytes]. intros b blk Hl.
  rewrite (poke_lookup_ne _ _ _ _ _ Hpoke); [by apply Hb|].
  apply lookup_lt_Some in Hl. lia.
Qed.

(** Where the clone lives: its text buffers and its array are blocks that
    did not exist before the call, and the call writes to no block that did. *)
Lemma Clone_layout h e :
  valid h e →
  ∃ c h',
    Clone cloneValue e h = Some (c, h') ∧
    preserves h h' ∧
    (∀ q, sdata (Message c) = Some q → length (bytes h) ≤ block q) ∧
    (∀ q, sdata (Source c) = Some q → length (bytes h) ≤ block q) ∧
    (∀ q, adata (Args c) = Some q → length (arrays h) ≤ block q) ∧
    alen (Args c) = acap (Args c) ∧
    is_Some (text h' (Message c)) ∧
    is_Some (text h' (Source c)) ∧
    is_Some (load_cells h' (Args c)).
Proof.
  intros Hv. destruct (valid_inv _ _ Hv) as (tm & ts & xs & args & Hm & Hs & Hxs & _).
  destruct (Clone_reads h e tm ts xs Hm Hs Hxs)
    as (c & h' & Hrun & [eb Hb] & [ea Ha] & Hm' & Hs' & Hxs' & _).
  exists c, h'. pose proof Hrun as Hrun'.
  rewrite (Clone_run h e tm ts xs Hm Hs Hxs) in Hrun'.
  injection Hrun' as Hc Hh'.
  split_and!; [done|by eapply preserves_grow|..].
  - rewrite <- Hc. cbn [Message]. unfold string_at.
    case_decide; [done|]. intros q [= <-]. cbn [block]. rewrite length_app. lia.
  - rewrite <- Hc. cbn [Source]. unfold string_at.
    case_decide; [done|]. intros q [= <-]. cbn [block]. rewrite length_app. lia.
  - rewrite <- Hc. cbn [Args]. unfold slice_at.
    case_decide; [done|]. by intros q [= <-].
  - rewrite <- Hc. cbn [Args]. unfold slice_at. by case_decide.
  - unfold text. by rewrite Hm'.
  - unfold text. by rewrite Hs'.
  - by rewrite Hxs'.
Qed.

(** A write into a text buffer of the clone leaves the original as it
    read. *)
Lemma store_in_clone_text h h' h'' e q ch :
  valid h e → preserves h h' → length (bytes h) ≤ block q →
  store_byte q ch h' = Some ((), h'') → reads h'' e = reads h e.
Proof.
  intros Hv Hp Hq Hst. apply reads_preserved; [done|].
  by eapply store_byte_preserves.
Qed.

(** [append] to a slice without spare capacity allocates, so it preserves
    the heap. *)
Lemma append_Args_full h a x :
  alen a = acap a → is_Some (load_cells h a) →
  ∃ a' h', append_Args a x h = Some (a', h') ∧ preserves h h'.
Proof.
  intros Hfull [xs Hxs]. unfold append_Args.
  rewrite decide_False by lia. rewrite Hxs. cbn [mbind option_bind].
  eexists _, _. split; [done|]. apply preserves_new_array.
Qed.

(** A write into a block that existed before the call leaves the storage
    [Clone] filled as it read. *)
Lemma store_in_old_block h h' h'' c q ch :
  (∀ q', sdata (Message c) = Some q' → length (bytes h) ≤ block q') →
  (∀ q', sdata (Source c) = Some q' → length (bytes h) ≤ block q') →
  block q < length (bytes h) →
  store_byte q ch h' = Some ((), h'') → reads_own h'' c = reads_own h' c.
Proof.
  intros Hm Hs Hq. unfold store_byte.
  destruct (poke (bytes h') q [ch]) as [mem|] eqn:Hpoke; [|done].
  intros [= <-]. unfold reads_own, text, load_string, load_cells. cbn [bytes arrays].
  rewrite !(window_poke_ne _ _ _ _ _ _ Hpoke); [done|..].
  - intros q' Hq'. specialize (Hs q' Hq'). lia.
  - intros q' Hq'. specialize (Hm q' Hq'). lia.
Qed.

Lemma window_le {X} (mem : list (list X)) p n k :
  n ≤ k → is_Some (window mem p k) → is_Some (window mem p n).
Proof.
  intros Hnk [xs Hxs]. unfold window. case_decide; [done|].
  apply window_Some in Hxs as [_ Hw].
  destruct Hw as (q & b & -> & Hb & Hle & _); [lia|]. simpl.
  rewrite Hb. simpl. rewrite decide_True by lia. done.
Qed.

(** [append] to the original, in place or not, leaves the storage [Clone]
    filled as it read. *)
Lemma append_Args_original h h' e c x :
  valid h e → preserves h h' →
  (∀ q', adata (Args c) = Some q' → length (arrays h) ≤ block q') →
  is_Some (text h' (Message c)) → is_Some (text h' (Source c)) →
  is_Some (load_cells h' (Args c)) →
  ∃ a' h'', append_Args (Args e) x h' = Some (a', h'') ∧
            reads_own h'' c = reads_own h' c.
Proof.
  intros (_ & _ & _ & Hle & Hcap) [Hpb Hpa] Hc [rm Hm] [rs Hs] [xs Hxs].
  unfold append_Args. case_decide as Hroom.
  - destruct Hcap as [ys Hys]. pose proof (window_Some _ _ _ _ Hys) as [_ Hw].
    destruct Hw as (q & b & Hq & Hb & Hbound & _); [lia|].
    rewrite Hq. cbn [mbind option_bind].
    unfold poke at 1. cbn [block offset].
    rewrite (Hpa _ _ Hb). cbn [mbind option_bind length].
    rewrite decide_True by lia.
    eexists _, _. split; [done|].
    unfold reads_own, text, load_string, load_cells. cbn [bytes arrays].
    f_equal. unfold window. case_decide; [done|].
    destruct (adata (Args c)) as [q'|] eqn:Hq'; [|done]. simpl.
    rewrite list_lookup_insert_ne; [done|].
    specialize (Hc q' eq_refl). apply lookup_lt_Some in Hb. lia.
  - assert (is_Some (load_cells h' (Args e))) as [ys Hys].
    { destruct (window_le _ _ _ _ Hle Hcap) as [ys Hys].
      exists ys. by eapply window_preserved. }
    rewrite Hys. cbn [mbind option_bind].
    eexists _, _. split; [done|].
    set (h'' := mkHeap _ _).
    assert (preserves h' h'') as Hp by apply preserves_new_array.
    unfold reads_own. rewrite Hm, Hs, Hxs.
    rewrite (text_preserved _ _ _ _ Hp Hm), (text_preserved _ _ _ _ Hp Hs).
    destruct Hp as [_ Hp]. unfold load_cells in *.
    by rewrite (window_preserved _ _ _ _ _ Hp Hxs).
Qed.

(** X17. The storage [Clone] fills is independent of the original: a write
    into a text buffer of the clone, or an [append] to the arguments of the clone,
    does not change what the original reads as; a write into any block that
    existed before the call, or an [append] to the arguments of the original,
    does not change the texts and the cells of the clone. *)
Lemma Clone_independent_storage h e :
  valid h e →
  ∃ c h',
    Clone cloneValue e h = Some (c, h') ∧
    (∀ q q' ch h'',
       sdata (Message c) = Some q' ∨ sdata (Source c) = Some q' →
       block q = block q' →
       store_byte q ch h' = Some ((), h'') → reads h'' e = reads h e) ∧
    (∀ x, ∃ a' h'', append_Args (Args c) x h' = Some (a', h'') ∧
                    reads h'' e = reads h e) ∧
    (∀ q ch h'',
       block q < length (bytes h) →
       store_byte q ch h' = Some ((), h'') → reads_own h'' c = reads_own h' c) ∧
    (∀ x, ∃ a' h'', append_Args (Args e) x h' = Some (a', h'') ∧
                    reads_own h'' c = reads_own h' c).
Proof.
  intros Hv.
  destruct (Clone_layout h e Hv)
    as (c & h' & Hrun & Hp & Hm & Hs & Ha & Hfull & Hrm & Hrs & Hra).
  exists c, h'. split_and!; [done|..].
  - intros q q' ch h'' Hq' Hblock Hst.
    eapply store_in_clone_text; [done..| |done].
    rewrite Hblock. destruct Hq'; eauto.
  - intros x. destruct (append_Args_full h' (Args c) x Hfull Hra)
      as (a' & h'' & Happ & Hp').
    exists a', h''. split; [done|].
    apply reads_preserved; [done|]. by eapply preserves_trans.
  - intros q ch h'' Hq Hst. by eapply store_in_old_block.
  - intros x. by eapply append_Args_original.
Qed.

(** ** No operation fails *)

Lemma Get_found_or_absent (args : slice (Arg Dyn string)) name :
  ∃ v ok, Get args name = (v, ok) ∧
          (ok = false ↔ Forall (λ x, Name x ≠ name) (elems args)) ∧
          (ok = false → v = nil).
Proof.
  unfold Get.
  destruct (first_match_or_none (elems args) name)
    as [(l1 & arg & l2 & -> & Hl1 & <-)|Hall].
  - exists (Value arg), true. split_and!; [by apply Get_range_app_first| |done].
    split; [done|]. intros [_ Harg%Forall_cons_1]%Forall_app. by destruct Harg.
  - exists nil, false. split_and!; [by apply Get_range_absent|done..].
Qed.

Lemma SortArgs_returns (args : slice (Arg Dyn string)) : is_Some (SortArgs args).
Proof.
  destruct args as [|l]; [by eexists|].
  destruct (SortArgs_Slice l) as (l' & -> & _). by eexists.
Qed.

(** C9. No operation fails.  [Get] returns a value and a flag for every list
    and name, and the flag alone tells that no entry has the name; [Map] and
    [SortArgs] return without a panic on every list; [A] returns a slice for
    every map and order of visit; [Clone] returns on every event whose
    storage is in the heap.  The nil and the empty inputs are among them. *)
Theorem operations_do_not_fail (args : slice (Arg Dyn string)) name (m : gomap Dyn) it h e :
  valid h e →
  (∃ v ok, Get args name = (v, ok) ∧
           (ok = false ↔ Forall (λ x, Name x ≠ name) (elems args)) ∧
           (ok = false → v = nil)) ∧
  is_Some (Map args) ∧
  (∃ l, A m it = Slice l) ∧
  is_Some (SortArgs args) ∧
  is_Some (Clone cloneValue e h) ∧
  Get (nilslice : slice (Arg Dyn string)) name = (nil, false) ∧
  Get (Slice [] : slice (Arg Dyn string)) name = (nil, false) ∧
  Map (nilslice : slice (Arg Dyn string)) = Some (Table ∅) ∧
  Map (Slice [] : slice (Arg Dyn string)) = Some (Table ∅) ∧
  A (nilmap : gomap Dyn) [] = Slice [] ∧
  A (Table ∅ : gomap Dyn) [] = Slice [] ∧
  SortArgs (nilslice : slice (Arg Dyn string)) = Some nilslice ∧
  SortArgs (Slice [] : slice (Arg Dyn string)) = Some (Slice []).
Proof.
  intros Hv. split_and!; try done.
  - apply Get_found_or_absent.
  - rewrite Map_Table. by eexists.
  - rewrite A_Slice. by eexists.
  - apply SortArgs_returns.
  - destruct (Clone_layout h e Hv) as (c & h' & -> & _). by eexists.
Qed.

End MemFacts.



(** * How the operations on argument lists compose *)

Section ArgsCompose.
Context {Dyn : Type}.
Implicit Types (args : Args Dyn) (l : list (Arg Dyn string)) (name : string).
Implicit Types (m : gomap Dyn) (t : gmap string (any Dyn)).

(** ** Lookup in a list and in its map *)

Lemma Get_range_found l name :
  (Get_range l name).2 = true ↔ name ∈ Name <$> l.
Proof.
  induction l as [|x l IH]; csimpl.
  - split; [done|]. by intros ?%elem_of_nil.
  - rewrite elem_of_cons. case_decide as Hx; simpl.
    + split; [intros _; by left|done].
    + rewrite IH. split; [by right|]. by intros [->|?].
Qed.

Lemma Get_range_not_found l name :
  name ∉ Name <$> l → Get_range l name = (nil, false).
Proof.
  intros Hname. apply Get_range_absent, Forall_forall.
  intros x Hx <-. apply Hname, list_elem_of_fmap. by exists x.
Qed.

(** Without a repeated name every entry is the first with its name. *)
Lemma Get_range_NoDup l arg :
  NoDup (Name <$> l) → arg ∈ l → Get_range l (Name arg) = (Value arg, true).
Proof.
  intros Hnd [l1 [l2 ->]]%list_elem_of_split.
  apply Get_range_app_first.
  rewrite fmap_app, fmap_cons in Hnd. apply NoDup_app in Hnd as (_ & Hdisj & _).
  apply Forall_forall. intros x Hx Heq.
  apply (Hdisj (Name x)); [apply list_elem_of_fmap; by exists x|].
  rewrite Heq. left.
Qed.

Lemma Get_range_Permutation l1 l2 name :
  l1 ≡ₚ l2 →
  (Get_range l1 name).2 = (Get_range l2 name).2 ∧
  (NoDup (Name <$> l1) → Get_range l1 name = Get_range l2 name).
Proof.
  intros Hperm. split.
  - apply eq_bool_prop_intro.
    rewrite !Is_true_true, !Get_range_found. by rewrite Hperm.
  - intros Hnd.
    destruct (decide (name ∈ Name <$> l1)) as [Hin|Hout].
    + apply list_elem_of_fmap in Hin as (arg & -> & Harg).
      rewrite (Get_range_NoDup l1) by done.
      rewrite (Get_range_NoDup l2); [done| |by rewrite <- Hperm].
      by rewrite <- Hperm.
    + rewrite (Get_range_not_found l1) by done.
      rewrite (Get_range_not_found l2); [done|]. by rewrite <- Hperm.
Qed.

(** The table of [Map] as a map built from the entries, last entry first. *)
Lemma Map_list_to_map args :
  Map args = Some (Table (list_to_map (reverse (Arg_entry <$> elems args)))).
Proof.
  rewrite Map_Table. do 2 f_equal.
  rewrite <- (entry_Arg_entry (elems args)) at 1.
  apply foldl_insert_list_to_map.
Qed.

Lemma Arg_entry_fst l : (Arg_entry <$> l).*1 = Name <$> l.
Proof. by rewrite <- list_fmap_compose. Qed.

Lemma Map_table_dom l :
  dom (list_to_map (reverse (Arg_entry <$> l)) : gmap string (any Dyn))
  = list_to_set (Name <$> l).
Proof.
  rewrite dom_list_to_map_L, fmap_reverse, Arg_entry_fst.
  apply set_eq. intros k. rewrite !elem_of_list_to_set. by rewrite reverse_Permutation.
Qed.

Lemma Map_table_Permutation l1 l2 :
  l1 ≡ₚ l2 → NoDup (Name <$> l1) →
  (list_to_map (reverse (Arg_entry <$> l1)) : gmap string (any Dyn))
  = list_to_map (reverse (Arg_entry <$> l2)).
Proof.
  intros Hperm Hnd. apply list_to_map_proper.
  - by rewrite fmap_reverse, Arg_entry_fst, reverse_Permutation.
  - by rewrite !reverse_Permutation, Hperm.
Qed.

Lemma Map_table_lookup l arg :
  NoDup (Name <$> l) → arg ∈ l →
  (list_to_map (reverse (Arg_entry <$> l)) : gmap string (any Dyn)) !! Name arg
  = Some (Value arg).
Proof.
  intros Hnd Harg. apply elem_of_list_to_map.
  - by rewrite fmap_reverse, Arg_entry_fst, reverse_Permutation.
  - rewrite elem_of_reverse. apply list_elem_of_fmap. by exists arg.
Qed.

(** X1. Sorting does not change which names [Get] finds, and when no name
    is repeated it does not change what [Get] returns; the same holds after
    any sequence of swaps. *)
Theorem Get_after_SortArgs args name :
  (∃ args', SortArgs args = Some args' ∧
            (Get args' name).2 = (Get args name).2 ∧
            (NoDup (Name <$> elems args) → Get args' name = Get args name)) ∧
  (∀ args' : byArgName Dyn,
     swaps (args : byArgName Dyn) args' →
     (Get args' name).2 = (Get args name).2 ∧
     (NoDup (Name <$> elems args) → Get args' name = Get args name)).
Proof.
  split.
  - destruct args as [|l]; [by exists nilslice|].
    destruct (SortArgs_Slice l) as (l' & Hrun & _ & Hperm).
    exists (Slice l'). split; [done|]. unfold Get. simpl.
    destruct (Get_range_Permutation l l' name) as [Hfound Hsame]; [done|].
    split; [done|]. intros Hnd. symmetry. by apply Hsame.
  - intros args' [Hperm _]%swaps_Permutation. unfold Get.
    destruct (Get_range_Permutation (elems args) (elems args') name)
      as [Hfound Hsame]; [done|].
    split; [done|]. intros Hnd. symmetry. by apply Hsame.
Qed.

(** X2. Sorting does not change the keys of [Map], and when no name is
    repeated it does not change the map. *)
Theorem Map_after_SortArgs args :
  ∃ args' t t',
    SortArgs args = Some args' ∧
    Map args = Some (Table t) ∧ Map args' = Some (Table t') ∧
    dom t' = dom t ∧
    (NoDup (Name <$> elems args) → t' = t).
Proof.
  assert (∃ args', SortArgs args = Some args' ∧ elems args' ≡ₚ elems args)
    as (args' & Hrun & Hperm).
  { destruct args as [|l]; [by exists nilslice|].
    destruct (SortArgs_Slice l) as (l' & Hrun & _ & Hperm). by exists (Slice l'). }
  eexists args', _, _. split_and!; [done|apply Map_list_to_map..| |].
  - rewrite !Map_table_dom. apply set_eq. intros k.
    by rewrite !elem_of_list_to_set, Hperm.
  - intros Hnd. symmetry. by apply Map_table_Permutation.
Qed.

(** X3. When no name is repeated, [Get] is lookup in [Map]: it returns the
    value the map binds to the name with [true], and the nil value with
    [false] for a name that is not a key. *)
Theorem Get_is_Map_lookup args :
  NoDup (Name <$> elems args) →
  ∃ t, Map args = Some (Table t) ∧
       ∀ name, Get args name =
               match t !! name with Some v => (v, true) | None => (nil, false) end.
Proof.
  intros Hnd. eexists. split; [apply Map_list_to_map|].
  intros name. unfold Get.
  destruct (decide (name ∈ Name <$> elems args)) as [Hin|Hout].
  - apply list_elem_of_fmap in Hin as (arg & -> & Harg).
    by rewrite Get_range_NoDup, Map_table_lookup.
  - rewrite Get_range_not_found by done.
    assert ((list_to_map (reverse (Arg_entry <$> elems args))
             : gmap string (any Dyn)) !! name = None) as ->; [|done].
    apply not_elem_of_list_to_map.
    by rewrite fmap_reverse, Arg_entry_fst, elem_of_reverse.
Qed.

Lemma size_list_to_set_le (ks : list string) :
  size (list_to_set ks : gset string) ≤ length ks ∧
  (size (list_to_set ks : gset string) = length ks ↔ NoDup ks).
Proof.
  induction ks as [|k ks [IHle IHeq]].
  { rewrite list_to_set_nil, size_empty. split; [done|]. split; [constructor|done]. }
  rewrite list_to_set_cons. cbn [length].
  destruct (decide (k ∈ ks)) as [Hin|Hout].
  - rewrite (subseteq_union_1_L {[k]})
      by (by apply singleton_subseteq_l, elem_of_list_to_set).
    split; [lia|]. split; [lia|]. intros Hnd. by apply NoDup_cons_1_1 in Hnd.
  - rewrite size_union, size_singleton
      by (by apply disjoint_singleton_l; rewrite elem_of_list_to_set).
    split; [lia|]. rewrite NoDup_cons. split.
    + intros Hsize. split; [done|]. apply IHeq. lia.
    + intros [_ Hnd]. apply IHeq in Hnd. lia.
Qed.

(** X4. The keys of [Map] are the names of the list; the map has at most as
    many entries as the list, and as many exactly when no name is
    repeated. *)
Theorem Map_size args :
  ∃ t, Map args = Some (Table t) ∧
       dom t = list_to_set (Name <$> elems args) ∧
       size t ≤ len args ∧
       (size t = len args ↔ NoDup (Name <$> elems args)).
Proof.
  eexists. split; [apply Map_list_to_map|].
  rewrite <- size_dom, Map_table_dom. unfold len.
  rewrite <- (length_fmap Name (elems args)).
  split; [done|]. apply size_list_to_set_le.
Qed.

(** X5. [Get] on [A(m)] is lookup in [m], in whatever order [range] visited
    the map. *)
Theorem Get_A_is_lookup m it name :
  map_range m it →
  Get (A m it) name =
  match entries m !! name with Some v => (v, true) | None => (nil, false) end.
Proof.
  intros Hit. rewrite A_Slice. unfold Get. simpl.
  assert (Name <$> (entry_Arg <$> it) = it.*1) as Hnames.
  { by rewrite <- list_fmap_compose. }
  assert (NoDup (Name <$> (entry_Arg <$> it))) as Hnd.
  { rewrite Hnames, Hit. apply NoDup_fst_map_to_list. }
  destruct (entries m !! name) as [v|] eqn:Hlook.
  - apply elem_of_map_to_list in Hlook. rewrite <- Hit in Hlook.
    apply (Get_range_NoDup _ (entry_Arg (name, v))); [done|].
    apply list_elem_of_fmap. by exists (name, v).
  - apply Get_range_not_found. rewrite Hnames.
    intros ([k v] & -> & Hin)%list_elem_of_fmap. simpl in Hlook.
    rewrite Hit in Hin. apply elem_of_map_to_list in Hin. congruence.
Qed.

(** X6. When no name is repeated, [A] of the map of a list gives the entries
    of the list back, in the order [range] visits the map. *)
Theorem A_Map_gives_entries_back args m it :
  NoDup (Name <$> elems args) →
  Map args = Some m → map_range m it →
  elems (A m it) ≡ₚ elems args.
Proof.
  intros Hnd HMap Hit. rewrite Map_list_to_map in HMap.
  injection HMap as <-. rewrite A_Slice. simpl.
  unfold map_range in Hit. simpl in Hit.
  rewrite map_to_list_to_map in Hit
    by (by rewrite fmap_reverse, Arg_entry_fst, reverse_Permutation).
  by rewrite Hit, reverse_Permutation, entry_Arg_entry.
Qed.

(** ** Sorting lists without repeated names *)

Lemma Name_inj_NoDup l x y :
  NoDup (Name <$> l) → x ∈ l → y ∈ l → Name x = Name y → x = y.
Proof.
  intros Hnd Hx Hy Hname.
  pose proof (Get_range_NoDup l x Hnd Hx) as Hgx.
  pose proof (Get_range_NoDup l y Hnd Hy) as Hgy.
  rewrite Hname, Hgy in Hgx. destruct x, y. by simplify_eq/=.
Qed.

(** Two ascending arrangements of the same entries are the same list. *)
Lemma sorted_unique l1 l2 :
  StronglySorted Name_le l1 → StronglySorted Name_le l2 →
  l1 ≡ₚ l2 → NoDup (Name <$> l1) → l1 = l2.
Proof.
  intros Hs1 Hs2 Hperm Hnd.
  apply (StronglySorted_unique_strong Name_le); [|done..].
  intros x1 x2 Hx1 Hx2 H12 H21.
  apply (Name_inj_NoDup l1); [done..|by rewrite Hperm|].
  by apply (anti_symm String.le).
Qed.

Lemma SortArgs_Permutation_NoDup l1 l2 :
  l1 ≡ₚ l2 → NoDup (Name <$> l1) →
  ∃ l', SortArgs (Slice l1) = Some (Slice l') ∧
        SortArgs (Slice l2) = Some (Slice l') ∧
        StronglySorted Name_le l' ∧ l' ≡ₚ l1.
Proof.
  intros Hperm Hnd.
  destruct (SortArgs_Slice l1) as (l1' & Hrun1 & Hs1 & Hp1).
  destruct (SortArgs_Slice l2) as (l2' & Hrun2 & Hs2 & Hp2).
  exists l1'. split_and!; [done| |done..].
  rewrite Hrun2. do 2 f_equal. symmetry.
  apply sorted_unique; [done..| |by rewrite Hp1].
  by rewrite Hp1, Hp2.
Qed.

(** X7. When no name is repeated, the result of [SortArgs] depends on the
    entries alone, not on the order they came in: two arrangements of the
    same entries sort to the same list, sorting that list again leaves it as
    it is, and any sequence of swaps that ends in ascending order ends in
    that list. *)
Theorem SortArgs_canonical l1 l2 :
  l1 ≡ₚ l2 → NoDup (Name <$> l1) →
  ∃ l', SortArgs (Slice l1) = Some (Slice l') ∧
        SortArgs (Slice l2) = Some (Slice l') ∧
        SortArgs (Slice l') = Some (Slice l') ∧
        (∀ a' : byArgName Dyn,
           swaps (Slice l2 : byArgName Dyn) a' → sorted_by_Less a' →
           a' = Slice l').
Proof.
  intros Hperm Hnd.
  destruct (SortArgs_Permutation_NoDup l1 l2 Hperm Hnd)
    as (l' & Hrun1 & Hrun2 & Hs & Hp).
  exists l'. split_and!; [done..| |].
  - destruct (SortArgs_Permutation_NoDup l1 l' ltac:(by symmetry) Hnd)
      as (l'' & Hrun1' & Hrun' & _). congruence.
  - intros a' Hswaps Hsorted.
    apply swaps_Permutation in Hswaps as [Hp' Hnil].
    apply sorted_by_Less_StronglySorted in Hsorted.
    destruct a' as [|l'']; [by destruct Hnil as [_ Hnil]; specialize (Hnil eq_refl)|].
    simpl in *. f_equal. symmetry.
    apply sorted_unique; [done..| |by rewrite Hp].
    by rewrite Hp, Hp'.
Qed.

(** X8. [SortArgs] after [A] gives one list, whatever order [range] visited
    the map in. *)
Theorem SortArgs_A_order_independent m it1 it2 :
  map_range m it1 → map_range m it2 →
  ∃ args', SortArgs (A m it1) = Some args' ∧ SortArgs (A m it2) = Some args'.
Proof.
  intros Hit1 Hit2. rewrite !A_Slice.
  destruct (SortArgs_Permutation_NoDup (entry_Arg <$> it1) (entry_Arg <$> it2))
    as (l' & Hrun1 & Hrun2 & _).
  - by rewrite Hit1, Hit2.
  - rewrite <- list_fmap_compose. change (NoDup it1.*1).
    rewrite Hit1. apply NoDup_fst_map_to_list.
  - by exists (Slice l').
Qed.

(** ** The methods of byArgName *)

Lemma Less_Some (a : byArgName Dyn) i j b :
  Less a i j = Some b ↔
  ∃ x y, elems a !! i = Some x ∧ elems a !! j = Some y ∧
         b = String.ltb (Name x) (Name y).
Proof.
  cbn [Less byArgName_Interface].
  destruct (elems a !! i) as [x|]; simpl.
  2:{ split; [done|]. by intros (? & ? & [=] & _). }
  destruct (elems a !! j) as [y|]; simpl.
  2:{ split; [done|]. by intros (? & ? & _ & [=] & _). }
  split; [intros [= <-]; by exists x, y|]. by intros (? & ? & [= <-] & [= <-] & ->).
Qed.

Lemma ltb_true_not_le (s1 s2 : string) :
  String.ltb s1 s2 = true ↔ ¬ String.le s2 s1.
Proof.
  rewrite <- ltb_false_le. by destruct (String.ltb s1 s2).
Qed.

Lemma ltb_trans (s1 s2 s3 : string) :
  String.ltb s1 s2 = true → String.ltb s2 s3 = true → String.ltb s1 s3 = true.
Proof.
  rewrite !ltb_true_not_le. intros H21 H32 H31.
  destruct (total String.le s1 s2) as [H12|]; [|done].
  apply H32. by etrans.
Qed.

(** X9. [Less] is a strict weak order on the positions of the slice, as
    [sort.Interface] asks: no position is less than itself, two positions are
    never less than each other, and both "less" and "not less" are
    transitive. *)
Theorem Less_strict_weak_order (a : byArgName Dyn) i j k :
  (i < Len a → Less a i i = Some false) ∧
  (Less a i j = Some true → Less a j i = Some false) ∧
  (Less a i j = Some true → Less a j k = Some true → Less a i k = Some true) ∧
  (Less a i j = Some false → Less a j k = Some false → Less a i k = Some false).
Proof.
  split_and!.
  - intros Hi. destruct (lookup_lt_is_Some_2 (elems a) i Hi) as [x Hx].
    apply Less_Some. exists x, x. split_and!; [done..|].
    symmetry. by apply ltb_false_le.
  - intros (x & y & Hx & Hy & Hlt)%Less_Some.
    apply Less_Some. exists y, x. split_and!; [done..|].
    symmetry. by apply ltb_false_le, ltb_true_le.
  - intros (x & y & Hx & Hy & Hxy)%Less_Some (y' & z & Hy' & Hz & Hyz)%Less_Some.
    simplify_eq. apply Less_Some. exists x, z. split_and!; [done..|].
    symmetry. by eapply ltb_trans.
  - intros (x & y & Hx & Hy & Hxy)%Less_Some (y' & z & Hy' & Hz & Hyz)%Less_Some.
    simplify_eq. apply Less_Some. exists x, z. split_and!; [done..|].
    symmetry in Hxy, Hyz. apply ltb_false_le in Hxy, Hyz.
    symmetry. apply ltb_false_le. by etrans.
Qed.


(** X11. [Swap] exchanges the entries at the two positions and touches no
    other; the slice keeps its length, and swapping the same positions again
    gives the slice back. *)
Theorem Swap_exchanges (a a' : byArgName Dyn) i j :
  Swap a i j = Some a' →
  elems a' !! i = elems a !! j ∧
  elems a' !! j = elems a !! i ∧
  (∀ k, k ≠ i → k ≠ j → elems a' !! k = elems a !! k) ∧
  Len a' = Len a ∧
  Swap a' i j = Some a.
Proof.
  destruct a as [|l]; [done|]. cbn [Swap Len byArgName_Interface]. unfold len.
  destruct (l !! i) as [x|] eqn:Hi; [|done].
  destruct (l !! j) as [y|] eqn:Hj; [|done].
  intros [= <-]. cbn [elems mbind option_bind].
  apply lookup_lt_Some in Hi as Hi'. apply lookup_lt_Some in Hj as Hj'.
  assert (<[j:=x]> (<[i:=y]> l) !! i = Some y) as Hi2.
  { destruct (decide (i = j)) as [->|Hne].
    - rewrite list_lookup_insert_eq by (by rewrite length_insert). congruence.
    - rewrite list_lookup_insert_ne by done. by apply list_lookup_insert_eq. }
  assert (<[j:=x]> (<[i:=y]> l) !! j = Some x) as Hj2.
  { apply list_lookup_insert_eq. by rewrite length_insert. }
  split_and!.
  - by rewrite Hi2, Hj.
  - by rewrite Hj2, Hi.
  - intros k Hki Hkj. by rewrite !list_lookup_insert_ne.
  - by rewrite !length_insert.
  - rewrite Hi2, Hj2. cbn [mbind option_bind]. do 2 f_equal.
    apply list_eq. intros k.
    destruct (decide (k = j)) as [->|Hkj].
    { rewrite list_lookup_insert_eq by (by rewrite !length_insert). done. }
    rewrite list_lookup_insert_ne by done.
    destruct (decide (k = i)) as [->|Hki].
    { rewrite list_lookup_insert_eq by (by rewrite !length_insert). done. }
    by rewrite !list_lookup_insert_ne.
Qed.

End ArgsCompose.





(** * More about Clone *)

Section CloneCompose.
Import Mem.
Context {Dyn time_Time : Type}.
Variable cloneValue : any Dyn → any Dyn.
Implicit Types (h : heap Dyn) (e c : Event time_Time).

(** Everything the run of [Clone] on a valid event gives, in one place. *)
Lemma Clone_full h e :
  valid h e →
  ∃ c h' tm ts args,
    Clone cloneValue e h = Some (c, h') ∧
    preserves h h' ∧
    text h (Message e) = Some tm ∧ text h' (Message c) = Some tm ∧
    text h (Source e) = Some ts ∧ text h' (Source c) = Some ts ∧
    read_Args h (Args e) = Some args ∧
    read_Args h' (Args c) = Some (clone_cell cloneValue <$> args) ∧
    Time c = Time e ∧ Debug c = Debug e ∧
    alen (Args c) = alen (Args e) ∧ acap (Args c) = alen (Args c) ∧
    is_Some (load_cells h' (Args c)).
Proof.
  intros Hv.
  destruct (valid_inv _ _ Hv) as (tm & ts & xs & args & Hm & Hs & Hxs & Hargs).
  destruct (Clone_reads cloneValue h e tm ts xs Hm Hs Hxs)
    as (c & h' & Hrun & [eb Hb] & [ea Ha] & Hm' & Hs' & Hxs' & Ht & Hd & _ & _ & Hl).
  destruct (Clone_layout cloneValue h e Hv)
    as (c0 & h0 & Hrun0 & Hp & _ & _ & _ & Hfull & _).
  rewrite Hrun in Hrun0. injection Hrun0 as <- <-.
  exists c, h', (String.string_of_list_ascii tm), (String.string_of_list_ascii ts), args.
  unfold text, read_Args. rewrite Hm, Hs, Hm', Hs', Hxs, Hxs'.
  split_and!; [done..| |done|done|done|by symmetry|by eexists].
  cbn [mbind option_bind]. rewrite <- (heap_eta h'), Hb. by apply read_cells_grow.
Qed.

Lemma valid_preserved h h' e : valid h e → preserves h h' → valid h' e.
Proof.
  intros ([rm Hm] & [rs Hs] & [args Ha] & Hle & [ys Hys]) Hp.
  split_and!; [| | |done|].
  - exists rm. by eapply text_preserved.
  - exists rs. by eapply text_preserved.
  - exists args. by eapply read_Args_preserved.
  - exists ys. destruct Hp as [_ Hp]. by eapply window_preserved.
Qed.

Lemma Clone_result_valid h h' c tm ts (args : list (Arg Dyn string)) :
  text h' (Message c) = Some tm → text h' (Source c) = Some ts →
  read_Args h' (Args c) = Some args →
  acap (Args c) = alen (Args c) → is_Some (load_cells h' (Args c)) →
  valid h' c.
Proof.
  intros Hm Hs Ha Hcap Hcells. split_and!; [by eexists..|lia|].
  by rewrite Hcap.
Qed.

(** X12. [Clone] changes nothing that was there: every block of the heap
    keeps its content, so the original reads as before and is still
    valid. *)
Theorem Clone_leaves_original h e :
  valid h e →
  ∃ c h',
    Clone cloneValue e h = Some (c, h') ∧
    preserves h h' ∧ reads h' e = reads h e ∧ valid h' e.
Proof.
  intros Hv.
  destruct (Clone_full h e Hv) as (c & h' & tm & ts & args & Hrun & Hp & _).
  exists c, h'. split_and!; [done..| |].
  - by apply reads_preserved.
  - by eapply valid_preserved.
Qed.

(** X13. The clone is a valid event of the new heap, and its argument slice
    has no spare capacity. *)
Theorem Clone_is_valid h e :
  valid h e →
  ∃ c h',
    Clone cloneValue e h = Some (c, h') ∧
    valid h' c ∧ acap (Args c) = alen (Args c).
Proof.
  intros Hv.
  destruct (Clone_full h e Hv)
    as (c & h' & tm & ts & args & Hrun & _ & _ & Hm & _ & Hs & _ & Ha & _ & _ & _
        & Hcap & Hcells).
  exists c, h'. split_and!; [done| |done].
  by eapply Clone_result_valid.
Qed.

(** X14. A clone can be cloned: the second clone reads as the first with
    [cloneValue] applied once more to the values, and neither call changes
    what the events before it read as. *)
Theorem Clone_twice h e :
  valid h e →
  ∃ c h' c2 h2 args,
    Clone cloneValue e h = Some (c, h') ∧
    Clone cloneValue c h' = Some (c2, h2) ∧
    read_Args h (Args e) = Some args ∧
    text h2 (Message c2) = text h (Message e) ∧
    text h2 (Source c2) = text h (Source e) ∧
    Time c2 = Time e ∧ Debug c2 = Debug e ∧
    read_Args h2 (Args c2)
      = Some (clone_cell cloneValue <$> (clone_cell cloneValue <$> args)) ∧
    reads h2 e = reads h e ∧ reads h2 c = reads h' c.
Proof.
  intros Hv.
  destruct (Clone_full h e Hv)
    as (c & h' & tm & ts & args & Hrun & Hp & Hm & Hm' & Hs & Hs' & Ha & Ha' & Ht
        & Hd & _ & Hcap & Hcells).
  assert (valid h' c) as Hv' by (by eapply Clone_result_valid).
  destruct (Clone_full h' c Hv')
    as (c2 & h2 & tm2 & ts2 & args2 & Hrun2 & Hp2 & Hm2 & Hm2' & Hs2 & Hs2' & Ha2
        & Ha2' & Ht2 & Hd2 & _).
  exists c, h', c2, h2, args. simplify_eq.
  split_and!; [done..|congruence|congruence|congruence|congruence|done| |].
  - apply reads_preserved; [done|]. by eapply preserves_trans.
  - by apply reads_preserved.
Qed.



Lemma Get_range_clone (l : list (Arg Dyn string)) name :
  Get_range (clone_cell cloneValue <$> l) name =
  (if (Get_range l name).2 then cloneValue (Get_range l name).1 else nil,
   (Get_range l name).2).
Proof.
  induction l as [|x l IH]; csimpl; [done|].
  by case_decide.
Qed.

Lemma foldl_insert_clone (l : list (Arg Dyn string)) (t : gmap string (any Dyn)) :
  foldl (λ t' arg, <[Name arg := Value arg]> t') (cloneValue <$> t)
        (clone_cell cloneValue <$> l)
  = cloneValue <$> foldl (λ t' arg, <[Name arg := Value arg]> t') t l.
Proof.
  revert t. induction l as [|x l IH]; intros t; csimpl; [done|].
  by rewrite <- fmap_insert, IH.
Qed.

(** X16. Lookup in the clone: [Get] finds in the clone's arguments the names
    it finds in the original's, with [cloneValue] of the value, and returns
    the nil value, not its clone, for a name that is absent; [Map] of the
    clone's arguments is [Map] of the original's with [cloneValue] applied to
    every value. *)
Theorem Clone_then_Get_Map h e :
  valid h e →
  ∃ c h' args args' t,
    Clone cloneValue e h = Some (c, h') ∧
    read_Args h (Args e) = Some args ∧
    read_Args h' (Args c) = Some args' ∧
    Map (Slice args) = Some (Table t) ∧
    Map (Slice args') = Some (Table (cloneValue <$> t)) ∧
    ∀ name,
      Get (Slice args') name =
      (if (Get (Slice args) name).2 then cloneValue (Get (Slice args) name).1
       else nil,
       (Get (Slice args) name).2).
Proof.
  intros Hv.
  destruct (Clone_full h e Hv)
    as (c & h' & tm & ts & args & Hrun & _ & _ & _ & _ & _ & Ha & Ha' & _).
  eexists c, h', args, _, _. split_and!; [done..|apply Map_Table| |].
  - rewrite Map_Table. simpl. do 2 f_equal.
    rewrite <- foldl_insert_clone. by rewrite fmap_empty.
  - intros name. apply Get_range_clone.
Qed.

End CloneCompose.



(** * Sample runs *)

(** The tests the package is specified by. *)
Example Get_first_ex : Get ex_args "x" = (Some 1, true).
Proof. reflexivity. Qed.

Example Get_absent_ex : Get (Slice [] : Args nat) "x" = (nil, false).
Proof. reflexivity. Qed.

Example Map_last_ex :
  Map ex_args = Some (Table (<["x" := Some 3]> (<["y" := Some 2]> ∅))).
Proof. unfold Map. simpl. by rewrite insert_insert_ne, insert_insert_eq. Qed.

Example SortArgs_ex :
  SortArgs ex_unsorted
  = Some (Slice [mkArg "a" (Some 2); mkArg "b" (Some 3); mkArg "c" (Some 1)]).
Proof. reflexivity. Qed.

Example SortArgs_equal_names_ex :
  SortArgs (Slice [mkArg "a" (Some 1); mkArg "a" (Some 2)])
  = Some (Slice [mkArg "a" (Some 1); mkArg "a" (Some 2)]).
Proof. reflexivity. Qed.

Lemma A_Map_round_trip_witness :
  map_range ex_map ex_range ∧
  Map (A ex_map ex_range) = Some (Table (entries ex_map)).
Proof.
  assert (map_range ex_map ex_range) as Hrange.
  { unfold map_range. apply (bool_decide_unpack _). vm_compute. exact I. }
  split; [exact Hrange|]. exact (A_Map_round_trip ex_map ex_range Hrange).
Defined.

Lemma A_one_entry_per_key_witness :
  map_range ex_map ex_range ∧
  A ex_map ex_range = Slice (entry_Arg <$> ex_range) ∧
  len (A ex_map ex_range) = maplen ex_map ∧
  NoDup (Name <$> elems (A ex_map ex_range)) ∧
  (∀ name v, mkArg name v ∈ elems (A ex_map ex_range)
             ↔ entries ex_map !! name = Some v) ∧
  (maplen ex_map = 0 → A ex_map ex_range = Slice []) ∧
  (∀ l', l' ≡ₚ elems (A ex_map ex_range) →
         ∃ it', map_range ex_map it' ∧ A ex_map it' = Slice l').
Proof.
  assert (map_range ex_map ex_range) as Hrange.
  { unfold map_range. apply (bool_decide_unpack _). vm_compute. exact I. }
  split; [exact Hrange|]. exact (A_one_entry_per_key ex_map ex_range Hrange).
Defined.

Lemma ex_event_valid : Mem.valid ex_heap ex_event.
Proof.
  unfold Mem.valid. split_and!; try (eexists; vm_compute; reflexivity).
  simpl. lia.
Defined.

Lemma Clone_copy_witness :
  Mem.valid ex_heap ex_event ∧
  ∃ c h',
    Mem.Clone ex_cloneValue ex_event ex_heap = Some (c, h') ∧
    is_Some (Mem.text h' (Mem.Message c)) ∧
    Mem.text h' (Mem.Message c) = Mem.text ex_heap (Mem.Message ex_event) ∧
    Mem.text h' (Mem.Source c) = Mem.text ex_heap (Mem.Source ex_event) ∧
    Mem.Time c = Mem.Time ex_event ∧ Mem.Debug c = Mem.Debug ex_event ∧
    Mem.alen (Mem.Args c) = Mem.alen (Mem.Args ex_event) ∧
    (∃ args, Mem.read_Args ex_heap (Mem.Args ex_event) = Some args ∧
             Mem.read_Args h' (Mem.Args c)
               = Some (Mem.clone_cell ex_cloneValue <$> args) ∧
             Forall2 (λ x y, Name y = Name x ∧ Value y = ex_cloneValue (Value x))
                     args (Mem.clone_cell ex_cloneValue <$> args)) ∧
    ((∀ v, ex_cloneValue v = v) →
       Mem.read_Args h' (Mem.Args c) = Mem.read_Args ex_heap (Mem.Args ex_event)).
Proof.
  split; [exact ex_event_valid|].
  exact (Clone_copy ex_cloneValue ex_heap ex_event ex_event_valid).
Defined.

Lemma Clone_empty_witness :
  Mem.slen (Mem.Message ex_empty_event) = 0 ∧
  Mem.slen (Mem.Source ex_empty_event) = 0 ∧
  Mem.alen (Mem.Args ex_empty_event) = 0 ∧
  Mem.Clone ex_cloneValue ex_empty_event ex_heap =
  Some (Mem.mkEvent Mem.empty_string Mem.empty_string Mem.nil_slice 42 true, ex_heap) ∧
  Mem.text ex_heap Mem.empty_string = Some "" ∧
  Mem.read_Args ex_heap Mem.nil_slice = Some [].
Proof.
  do 3 (split; [reflexivity|]).
  exact (Clone_empty ex_cloneValue ex_heap ex_empty_event eq_refl eq_refl eq_refl).
Defined.

Lemma operations_do_not_fail_witness :
  Mem.valid ex_heap ex_event ∧
  (∃ v ok, Get ex_args "z" = (v, ok) ∧
           (ok = false ↔ Forall (λ x, Name x ≠ "z") (elems ex_args)) ∧
           (ok = false → v = nil)) ∧
  is_Some (Map ex_args) ∧
  (∃ l, A ex_map ex_range = Slice l) ∧
  is_Some (SortArgs ex_args) ∧
  is_Some (Mem.Clone ex_cloneValue ex_event ex_heap) ∧
  Get (nilslice : Args nat) "z" = (nil, false) ∧
  Get (Slice [] : Args nat) "z" = (nil, false) ∧
  Map (nilslice : Args nat) = Some (Table ∅) ∧
  Map (Slice [] : Args nat) = Some (Table ∅) ∧
  A (nilmap : gomap nat) [] = Slice [] ∧
  A (Table ∅ : gomap nat) [] = Slice [] ∧
  SortArgs (nilslice : Args nat) = Some nilslice ∧
  SortArgs (Slice [] : Args nat) = Some (Slice []).
Proof.
  split; [exact ex_event_valid|].
  exact (operations_do_not_fail ex_cloneValue ex_args "z" ex_map ex_range
           ex_heap ex_event ex_event_valid).
Defined.

(** C5, where it fails.  [Clone] gives the message, the source and the pairs
    storage of their own ([Clone_independent_storage]), but not the names of
    the arguments: on the sample event the clone's argument carries the very
    name header of the original's argument, so both names are read from one
    buffer, and a byte written into that buffer through the clone shows in
    the original. *)
Theorem Clone_shares_Name_buffers :
  ∃ c h' h'',
    Mem.Clone ex_cloneValue ex_event ex_heap = Some (c, h') ∧
    Mem.load_cells h' (Mem.Args c)
      = Some [mkArg (Mem.mkString (Some (Mem.Ptr 2 0)) 1) (Some 7)] ∧
    Mem.load_cells h' (Mem.Args ex_event)
      = Some [mkArg (Mem.mkString (Some (Mem.Ptr 2 0)) 1) (Some 7)] ∧
    Mem.store_byte (Mem.Ptr 2 0) "X"%char h' = Some ((), h'') ∧
    Mem.read_Args h' (Mem.Args c) = Some [mkArg "k" (Some 7)] ∧
    Mem.read_Args h'' (Mem.Args c) = Some [mkArg "X" (Some 7)] ∧
    Mem.read_Args h' (Mem.Args ex_event) = Some [mkArg "k" (Some 7)] ∧
    Mem.read_Args h'' (Mem.Args ex_event) = Some [mkArg "X" (Some 7)].
Proof. eexists _, _, _. by vm_compute. Qed.

(** ** Runs of the composition facts *)

Lemma ex_unsorted_NoDup : NoDup (Name <$> elems ex_unsorted).
Proof. apply (bool_decide_unpack _). vm_compute. exact I. Defined.

Lemma Get_is_Map_lookup_witness :
  NoDup (Name <$> elems ex_unsorted) ∧
  ∃ t, Map ex_unsorted = Some (Table t) ∧
       ∀ name, Get ex_unsorted name =
               match t !! name with Some v => (v, true) | None => (nil, false) end.
Proof.
  split; [exact ex_unsorted_NoDup|].
  exact (Get_is_Map_lookup ex_unsorted ex_unsorted_NoDup).
Defined.

Lemma ex_map_range : map_range ex_map ex_range.
Proof. unfold map_range. apply (bool_decide_unpack _). vm_compute. exact I. Defined.

Lemma ex_map_range2 : map_range ex_map ex_range2.
Proof. unfold map_range. apply (bool_decide_unpack _). vm_compute. exact I. Defined.

Lemma Get_A_is_lookup_witness :
  map_range ex_map ex_range ∧
  Get (A ex_map ex_range) "b" =
  match entries ex_map !! "b" with Some v => (v, true) | None => (nil, false) end.
Proof.
  split; [exact ex_map_range|].
  exact (Get_A_is_lookup ex_map ex_range "b" ex_map_range).
Defined.

Lemma A_Map_gives_entries_back_witness :
  NoDup (Name <$> elems ex_unsorted) ∧
  Map ex_unsorted = Some ex_unsorted_map ∧
  map_range ex_unsorted_map ex_unsorted_range ∧
  elems (A ex_unsorted_map ex_unsorted_range) ≡ₚ elems ex_unsorted.
Proof.
  assert (map_range ex_unsorted_map ex_unsorted_range) as Hrange.
  { unfold map_range. apply (bool_decide_unpack _). vm_compute. exact I. }
  split; [exact ex_unsorted_NoDup|]. split; [reflexivity|]. split; [exact Hrange|].
  exact (A_Map_gives_entries_back ex_unsorted ex_unsorted_map ex_unsorted_range
           ex_unsorted_NoDup eq_refl Hrange).
Defined.

Lemma SortArgs_canonical_witness :
  elems ex_unsorted ≡ₚ ex_rearranged ∧
  NoDup (Name <$> elems ex_unsorted) ∧
  ∃ l', SortArgs (Slice (elems ex_unsorted)) = Some (Slice l') ∧
        SortArgs (Slice ex_rearranged) = Some (Slice l') ∧
        SortArgs (Slice l') = Some (Slice l') ∧
        (∀ a' : byArgName nat,
           swaps (Slice ex_rearranged : byArgName nat) a' → sorted_by_Less a' →
           a' = Slice l').
Proof.
  assert (elems ex_unsorted ≡ₚ ex_rearranged) as Hperm.
  { exact (Permutation_cons_append _ _). }
  split; [exact Hperm|]. split; [exact ex_unsorted_NoDup|].
  exact (SortArgs_canonical (elems ex_unsorted) ex_rearranged Hperm ex_unsorted_NoDup).
Defined.

Lemma SortArgs_A_order_independent_witness :
  map_range ex_map ex_range ∧ map_range ex_map ex_range2 ∧
  ∃ args', SortArgs (A ex_map ex_range) = Some args' ∧
           SortArgs (A ex_map ex_range2) = Some args'.
Proof.
  split; [exact ex_map_range|]. split; [exact ex_map_range2|].
  exact (SortArgs_A_order_independent ex_map ex_range ex_range2
           ex_map_range ex_map_range2).
Defined.

Lemma Swap_exchanges_witness :
  Swap (ex_unsorted : byArgName nat) 0 2 = Some (Slice ex_swapped) ∧
  elems (Slice ex_swapped) !! 0 = elems ex_unsorted !! 2 ∧
  elems (Slice ex_swapped) !! 2 = elems ex_unsorted !! 0 ∧
  (∀ k, k ≠ 0 → k ≠ 2 → elems (Slice ex_swapped) !! k = elems ex_unsorted !! k) ∧
  Len (Slice ex_swapped : byArgName nat) = Len (ex_unsorted : byArgName nat) ∧
  Swap (Slice ex_swapped : byArgName nat) 0 2 = Some ex_unsorted.
Proof.
  split; [reflexivity|].
  exact (Swap_exchanges ex_unsorted (Slice ex_swapped) 0 2 eq_refl).
Defined.

Section CloneRuns.
Import Mem.

Lemma Clone_leaves_original_witness :
  valid ex_heap ex_event ∧
  ∃ c h',
    Clone ex_cloneValue ex_event ex_heap = Some (c, h') ∧
    preserves ex_heap h' ∧ reads h' ex_event = reads ex_heap ex_event ∧
    valid h' ex_event.
Proof.
  split; [exact ex_event_valid|].
  exact (Clone_leaves_original ex_cloneValue ex_heap ex_event ex_event_valid).
Defined.

Lemma Clone_is_valid_witness :
  valid ex_heap ex_event ∧
  ∃ c h',
    Clone ex_cloneValue ex_event ex_heap = Some (c, h') ∧
    valid h' c ∧ acap (Args c) = alen (Args c).
Proof.
  split; [exact ex_event_valid|].
  exact (Clone_is_valid ex_cloneValue ex_heap ex_event ex_event_valid).
Defined.

Lemma Clone_twice_witness :
  valid ex_heap ex_event ∧
  ∃ c h' c2 h2 args,
    Clone ex_cloneValue ex_event ex_heap = Some (c, h') ∧
    Clone ex_cloneValue c h' = Some (c2, h2) ∧
    read_Args ex_heap (Args ex_event) = Some args ∧
    text h2 (Message c2) = text ex_heap (Message ex_event) ∧
    text h2 (Source c2) = text ex_heap (Source ex_event) ∧
    Time c2 = Time ex_event ∧ Debug c2 = Debug ex_event ∧
    read_Args h2 (Args c2)
      = Some (clone_cell ex_cloneValue <$> (clone_cell ex_cloneValue <$> args)) ∧
    reads h2 ex_event = reads ex_heap ex_event ∧ reads h2 c = reads h' c.
Proof.
  split; [exact ex_event_valid|].
  exact (Clone_twice ex_cloneValue ex_heap ex_event ex_event_valid).
Defined.


Lemma Clone_then_Get_Map_witness :
  valid ex_heap ex_event ∧
  ∃ c h' args args' t,
    Clone ex_cloneValue ex_event ex_heap = Some (c, h') ∧
    read_Args ex_heap (Args ex_event) = Some args ∧
    read_Args h' (Args c) = Some args' ∧
    Map (Slice args) = Some (Table t) ∧
    Map (Slice args') = Some (Table (ex_cloneValue <$> t)) ∧
    ∀ name,
      Get (Slice args') name =
      (if (Get (Slice args) name).2 then ex_cloneValue (Get (Slice args) name).1
       else nil,
       (Get (Slice args) name).2).
Proof.
  split; [exact ex_event_valid|].
  exact (Clone_then_Get_Map ex_cloneValue ex_heap ex_event ex_event_valid).
Defined.

Lemma Clone_independent_storage_witness :
  valid ex_heap ex_event ∧
  ∃ c h',
    Clone ex_cloneValue ex_event ex_heap = Some (c, h') ∧
    (∀ q q' ch h'',
       sdata (Message c) = Some q' ∨ sdata (Source c) = Some q' →
       block q = block q' →
       store_byte q ch h' = Some ((), h'') →
       reads h'' ex_event = reads ex_heap ex_event) ∧
    (∀ x, ∃ a' h'', append_Args (Args c) x h' = Some (a', h'') ∧
                    reads h'' ex_event = reads ex_heap ex_event) ∧
    (∀ q ch h'',
       block q < length (bytes ex_heap) →
       store_byte q ch h' = Some ((), h'') → reads_own h'' c = reads_own h' c) ∧
    (∀ x, ∃ a' h'', append_Args (Args ex_event) x h' = Some (a', h'') ∧
                    reads_own h'' c = reads_own h' c).
Proof.
  split; [exact ex_event_valid|].
  exact (Clone_independent_storage ex_cloneValue ex_heap ex_event ex_event_valid).
Defined.

End CloneRuns.
